(** * facelessvidoegenerator: the client-side video assembly pipeline

    A shallow embedding of [assembleVideo] (utils/videoCreationUtils.ts, the
    second document of src/components/FacelessVideoGenerator.tsx) and the
    properties of its scene scheduler, Ken Burns animator and promise /
    recorder protocol.

    Numbers.  A JavaScript Number is modelled as an exact rational or one of
    the IEEE special values +Infinity, -Infinity and NaN.  Division by zero,
    arithmetic on the infinities and NaN propagation follow ECMAScript; the
    rounding of binary64 and the sign of zero are not modelled, so every
    finite result is the exact one.

    Control.  [assembleVideo] returns a promise and leaves callbacks behind:
    [onload] and [onerror] of each image, the [draw] callback of
    [requestAnimationFrame], and [ondataavailable], [onstop] and [onerror]
    of the recorder.  The call is modelled as a machine: a state holding the
    variables of the closure, the initial state the call leaves, and one
    step per event the host delivers.  The executor passed to [new Promise]
    is an [async] function, so an exception inside it, after the first
    [await] or before, settles the promise of that function and not the
    promise returned to the caller; the state keeps the two apart.

    Around it.  The component that calls [assembleVideo] ([handleGenerate]
    and its helpers), the provider of usage limits and credits that the
    components consult, the edit history of the photo editor and the two
    loops of the promo video generator are modelled as functions on their
    React state.  An awaited promise is seen as settled, failed or not yet
    answered. *)

From Stdlib Require Import String QArith Qround ZArith List Bool Lia Lqa.
From Stdlib Require Import Permutation.
Import ListNotations.

Set Implicit Arguments.

(* ================================================================= *)
(** ** JavaScript numbers *)

Module Number.

Inductive number : Type :=
| Fin (q : Q)
| PosInf
| NegInf
| NaN.

Definition Qltb (a b : Q) : bool := negb (Qle_bool b a).

Definition signed_inf (positive : bool) : number :=
  if positive then PosInf else NegInf.

Definition of_Z (z : Z) : number := Fin (inject_Z z).
Definition of_nat (n : nat) : number := of_Z (Z.of_nat n).

(** unary minus *)
Definition neg (a : number) : number :=
  match a with
  | Fin q => Fin (- q)
  | PosInf => NegInf
  | NegInf => PosInf
  | NaN => NaN
  end.

(** [a + b] *)
Definition add (a b : number) : number :=
  match a, b with
  | NaN, _ | _, NaN => NaN
  | Fin x, Fin y => Fin (x + y)
  | PosInf, NegInf | NegInf, PosInf => NaN
  | PosInf, _ | _, PosInf => PosInf
  | NegInf, _ | _, NegInf => NegInf
  end.

(** [a - b] *)
Definition sub (a b : number) : number := add a (neg b).

(** [a * b] *)
Definition mul (a b : number) : number :=
  match a, b with
  | NaN, _ | _, NaN => NaN
  | Fin x, Fin y => Fin (x * y)
  | Fin x, PosInf | PosInf, Fin x =>
      if Qeq_bool x 0 then NaN else signed_inf (Qltb 0 x)
  | Fin x, NegInf | NegInf, Fin x =>
      if Qeq_bool x 0 then NaN else signed_inf (Qltb x 0)
  | PosInf, PosInf | NegInf, NegInf => PosInf
  | PosInf, NegInf | NegInf, PosInf => NegInf
  end.

(** [a / b]: a finite non-zero value over zero is an infinity, zero over
    zero is NaN, a finite value over an infinity is zero. *)
Definition div (a b : number) : number :=
  match a, b with
  | NaN, _ | _, NaN => NaN
  | Fin x, Fin y =>
      if Qeq_bool y 0
      then (if Qeq_bool x 0 then NaN else signed_inf (Qltb 0 x))
      else Fin (x / y)
  | Fin _, (PosInf | NegInf) => Fin 0
  | PosInf, Fin y => signed_inf (Qle_bool 0 y)
  | NegInf, Fin y => signed_inf (Qltb y 0)
  | (PosInf | NegInf), (PosInf | NegInf) => NaN
  end.

(** rounding toward zero, the quotient of [%] *)
Definition Qtruncate (q : Q) : Z :=
  if Qle_bool 0 q then Qfloor q else Qceiling q.

(** [n % d]: the remainder has the sign of the dividend. *)
Definition rem (n d : number) : number :=
  match n, d with
  | Fin x, Fin y =>
      if Qeq_bool y 0 then NaN
      else Fin (x - y * inject_Z (Qtruncate (x / y)))
  | Fin x, (PosInf | NegInf) => Fin x
  | _, _ => NaN
  end.

(** [Math.floor] *)
Definition Math_floor (a : number) : number :=
  match a with
  | Fin q => Fin (inject_Z (Qfloor q))
  | other => other
  end.

(** [Math.min] of two arguments *)
Definition Math_min (a b : number) : number :=
  match a, b with
  | NaN, _ | _, NaN => NaN
  | NegInf, _ | _, NegInf => NegInf
  | PosInf, other | other, PosInf => other
  | Fin x, Fin y => if Qle_bool x y then Fin x else Fin y
  end.

(** [a >= b], false as soon as one side is NaN *)
Definition geb (a b : number) : bool :=
  match a, b with
  | NaN, _ | _, NaN => false
  | PosInf, _ => true
  | _, NegInf => true
  | NegInf, _ => false
  | _, PosInf => false
  | Fin x, Fin y => Qle_bool y x
  end.

(** Same value: rationals up to [==]. *)
Definition eqv (a b : number) : Prop :=
  match a, b with
  | Fin x, Fin y => x == y
  | PosInf, PosInf | NegInf, NegInf | NaN, NaN => True
  | _, _ => False
  end.

(** The order of the number line, with NaN unordered. *)
Definition le (a b : number) : Prop :=
  match a, b with
  | NaN, _ | _, NaN => False
  | NegInf, _ => True
  | _, PosInf => True
  | Fin x, Fin y => x <= y
  | _, _ => False
  end.

Definition lt (a b : number) : Prop :=
  match a, b with
  | NaN, _ | _, NaN => False
  | PosInf, _ => False
  | _, NegInf => False
  | Fin x, Fin y => x < y
  | _, _ => True
  end.

(** [arr[k]] for a number key: an element when [k] is a non-negative
    integer below the length, [undefined] otherwise. *)
Definition index {A : Type} (arr : list A) (k : number) : option A :=
  match k with
  | Fin q =>
      if Qeq_bool q (inject_Z (Qfloor q)) && Qle_bool 0 q
      then nth_error arr (Z.to_nat (Qfloor q))
      else None
  | _ => None
  end.

End Number.

Import Number.

Declare Scope js_scope.
Delimit Scope js_scope with js.
Bind Scope js_scope with number.
Infix "+" := add : js_scope.
Infix "-" := sub : js_scope.
Infix "*" := mul : js_scope.
Infix "/" := div : js_scope.
Infix "mod" := rem : js_scope.
Infix ">=?" := geb (at level 70) : js_scope.
Infix "==" := eqv : js_scope.
Infix "<=" := le : js_scope.
Infix "<" := lt : js_scope.
Notation "a <= b < c" := (le a b /\ lt b c) : js_scope.

(* ================================================================= *)
(** ** Scene scheduler and Ken Burns animator

    The arithmetic of [assembleVideo] and of its [draw] callback, one
    definition per local of the source. *)

(** [const sceneDuration = audioDuration / images.length] *)
Definition sceneDuration (audioDuration : number) (length : nat) : number :=
  (audioDuration / of_nat length)%js.

(** [const elapsedTime = (now - startTime) / 1000] *)
Definition elapsedTime (startTime now : number) : number :=
  ((now - startTime) / Fin 1000)%js.

(** [Math.min(Math.floor(elapsedTime / sceneDuration), images.length - 1)],
    the value assigned to [currentScene] *)
Definition sceneIndex (sceneDuration : number) (length : nat)
    (elapsedTime : number) : number :=
  Math_min (Math_floor (elapsedTime / sceneDuration))
           (of_nat length - Fin 1)%js.

(** [const timeInScene = elapsedTime % sceneDuration] *)
Definition timeInScene (sceneDuration elapsedTime : number) : number :=
  (elapsedTime mod sceneDuration)%js.

(** [timeInScene / sceneDuration], the fraction of the scene already shown *)
Definition sceneProgress (sceneDuration elapsedTime : number) : number :=
  (timeInScene sceneDuration elapsedTime / sceneDuration)%js.

(** [const scale = 1 + (timeInScene / sceneDuration) * 0.1] *)
Definition scale (progress : number) : number :=
  (Fin 1 + progress * Fin (1 # 10))%js.

(** The four geometry arguments of [ctx.drawImage]. *)
Record Rect : Type := mkRect {
  destX : number;
  destY : number;
  destWidth : number;
  destHeight : number
}.

(** [x = (canvas.width - image.width * scale) / 2], [y] alike, and the
    size [image.width * scale] by [image.height * scale] *)
Definition destRect (canvasWidth canvasHeight imageWidth imageHeight : number)
    (scale : number) : Rect :=
  {| destX := ((canvasWidth - imageWidth * scale) / Fin 2)%js;
     destY := ((canvasHeight - imageHeight * scale) / Fin 2)%js;
     destWidth := (imageWidth * scale)%js;
     destHeight := (imageHeight * scale)%js |}.

(** The scheduler in the words of the specification, on rationals:
    [sceneIndex(t) = min(floor(t / sceneDuration), N-1)] and
    [t mod sceneDuration], with [sceneDuration = D / N]. *)
Definition spec_sceneDuration (D : Q) (N : nat) : Q :=
  D / inject_Z (Z.of_nat N).

Definition spec_sceneIndex (D : Q) (N : nat) (t : Q) : Z :=
  Z.min (Qfloor (t / spec_sceneDuration D N)) (Z.of_nat N - 1).



(* ================================================================= *)
(** ** Data model *)

Record GeneratedImage : Type := mkImage {
  base64 : string;
  mimeType : string
}.

(** A decoded image; [width] and [height] are the natural size the host
    reports once the image has loaded. *)
Record HTMLImageElement : Type := mkElement {
  src : string;
  width : Z;
  height : Z
}.

(** [`data:${img.mimeType};base64,${img.base64}`] *)
Definition dataURL (img : GeneratedImage) : string :=
  ("data:" ++ mimeType img ++ ";base64," ++ base64 img)%string.

Record AudioBuffer : Type := mkAudio { duration : Q }.

Record Blob : Type := mkBlob {
  bytes : list Byte.byte;
  type : string
}.

(** [new Blob(parts, { type })]: the parts' bytes end to end. *)
Definition new_Blob (parts : list Blob) (ty : string) : Blob :=
  {| bytes := concat (map bytes parts); type := ty |}.

(** What a promise is rejected with, or what an uncaught [throw] carries. *)
Inductive Reason : Type :=
| Error (message : string)
| TypeError (message : string)
| NotSupportedError
| ImageErrorEvent (i : nat)
| RecorderErrorEvent (e : string).

Inductive Promise (A : Type) : Type :=
| Pending
| Fulfilled (v : A)
| Rejected (r : Reason).
Arguments Pending {A}.
Arguments Fulfilled {A} v.
Arguments Rejected {A} r.

(** The [resolve] and [reject] functions of a promise: the first call
    settles it and every later call is ignored. *)
Definition resolve {A : Type} (p : Promise A) (v : A) : Promise A :=
  match p with Pending => Fulfilled v | settled => settled end.

Definition reject {A : Type} (p : Promise A) (r : Reason) : Promise A :=
  match p with Pending => Rejected r | settled => settled end.

(** [Promise.all]: the values in input order once every promise is
    fulfilled. *)
Fixpoint all_fulfilled {A : Type} (ps : list (Promise A)) : option (list A) :=
  match ps with
  | [] => Some []
  | Fulfilled v :: rest => option_map (cons v) (all_fulfilled rest)
  | _ :: _ => None
  end.

Fixpoint settle {A : Type} (i : nat) (p : Promise A) (ps : list (Promise A))
    : list (Promise A) :=
  match ps, i with
  | [], _ => []
  | _ :: rest, O => p :: rest
  | q :: rest, S j => q :: settle j p rest
  end.

Inductive CanvasOp : Type :=
| FillRect (fillStyle : string) (x y w h : number)
| DrawImage (image : HTMLImageElement) (r : Rect).

Inductive RecordingState : Type := Recording | Inactive.

(** Where the async executor of the returned promise stands: suspended at
    [await Promise.all], run to its end (or returned early), or ended by an
    exception.  An exception thrown inside the async executor rejects the
    executor's own promise and reaches nobody else. *)
Inductive Executor : Type :=
| AwaitingImages
| Completed
| Threw (r : Reason).

(** The host: what the browser supports, and the clock reading taken by
    [performance.now()] when recording starts. *)
Record Host : Type := mkHost {
  context2d_available : bool;
  captureStream_available : bool;
  recorder_mimeType_supported : bool;
  performance_now : Q
}.

(** What the host delivers to the callbacks the code installs. *)
Inductive Event : Type :=
| ImgLoad (i : nat) (naturalWidth naturalHeight : Z)
| ImgError (i : nat)
| AnimationFrame (now : Q)
| DataAvailable (data : Blob)
| Stop
| RecorderError (e : string).

(** The variables of one call.  [loads] holds the promise of each image
    element, in input order; [canvas] records the drawing operations in the
    order they were issued; [constructed] records every blob built by
    [new Blob]. *)
Record State : Type := mkState {
  promise : Promise Blob;
  executor : Executor;
  loads : list (Promise HTMLImageElement);
  imageElements : list HTMLImageElement;
  audioStarted : bool;
  recorder : option RecordingState;
  chunks : list Blob;
  startTime : Q;
  rafPending : bool;
  currentScene : number;
  canvas : list CanvasOp;
  constructed : list Blob
}.

Definition set_promise (s : State) (p : Promise Blob) : State :=
  mkState p (executor s) (loads s) (imageElements s) (audioStarted s)
          (recorder s) (chunks s) (startTime s) (rafPending s)
          (currentScene s) (canvas s) (constructed s).

Definition set_executor (s : State) (x : Executor) : State :=
  mkState (promise s) x (loads s) (imageElements s) (audioStarted s)
          (recorder s) (chunks s) (startTime s) (rafPending s)
          (currentScene s) (canvas s) (constructed s).

Definition set_loads (s : State) (l : list (Promise HTMLImageElement)) : State :=
  mkState (promise s) (executor s) l (imageElements s) (audioStarted s)
          (recorder s) (chunks s) (startTime s) (rafPending s)
          (currentScene s) (canvas s) (constructed s).

Definition set_imageElements (s : State) (l : list HTMLImageElement) : State :=
  mkState (promise s) (executor s) (loads s) l (audioStarted s)
          (recorder s) (chunks s) (startTime s) (rafPending s)
          (currentScene s) (canvas s) (constructed s).

Definition set_audioStarted (s : State) (b : bool) : State :=
  mkState (promise s) (executor s) (loads s) (imageElements s) b
          (recorder s) (chunks s) (startTime s) (rafPending s)
          (currentScene s) (canvas s) (constructed s).

Definition set_recorder (s : State) (r : option RecordingState) : State :=
  mkState (promise s) (executor s) (loads s) (imageElements s) (audioStarted s)
          r (chunks s) (startTime s) (rafPending s)
          (currentScene s) (canvas s) (constructed s).

Definition set_chunks (s : State) (c : list Blob) : State :=
  mkState (promise s) (executor s) (loads s) (imageElements s) (audioStarted s)
          (recorder s) c (startTime s) (rafPending s)
          (currentScene s) (canvas s) (constructed s).

Definition set_startTime (s : State) (t : Q) : State :=
  mkState (promise s) (executor s) (loads s) (imageElements s) (audioStarted s)
          (recorder s) (chunks s) t (rafPending s)
          (currentScene s) (canvas s) (constructed s).

Definition set_rafPending (s : State) (b : bool) : State :=
  mkState (promise s) (executor s) (loads s) (imageElements s) (audioStarted s)
          (recorder s) (chunks s) (startTime s) b
          (currentScene s) (canvas s) (constructed s).

Definition set_currentScene (s : State) (n : number) : State :=
  mkState (promise s) (executor s) (loads s) (imageElements s) (audioStarted s)
          (recorder s) (chunks s) (startTime s) (rafPending s)
          n (canvas s) (constructed s).

Definition set_canvas (s : State) (c : list CanvasOp) : State :=
  mkState (promise s) (executor s) (loads s) (imageElements s) (audioStarted s)
          (recorder s) (chunks s) (startTime s) (rafPending s)
          (currentScene s) c (constructed s).

Definition set_constructed (s : State) (c : list Blob) : State :=
  mkState (promise s) (executor s) (loads s) (imageElements s) (audioStarted s)
          (recorder s) (chunks s) (startTime s) (rafPending s)
          (currentScene s) (canvas s) c.

(** [canvas.width = 1280; canvas.height = 720] *)
Definition canvas_width : number := Fin 1280.
Definition canvas_height : number := Fin 720.

(** [ctx.fillStyle = 'black'; ctx.fillRect(0, 0, canvas.width, canvas.height)] *)
Definition clear_black : CanvasOp :=
  FillRect "black" (Fin 0) (Fin 0) canvas_width canvas_height.

(* ================================================================= *)
(** ** [assembleVideo] as a machine driven by host events *)

Section AssembleVideo.

Variable host : Host.
Variable images : list GeneratedImage.
Variable audioBuffer : AudioBuffer.

(** [const audioDuration = audioBuffer.duration] *)
Definition audioDuration : number := Fin (duration audioBuffer).

(** [recorder.stop()]: an active recorder becomes inactive (the host then
    delivers the buffered data and the stop event); on an inactive one the
    call does nothing. *)
Definition recorder_stop (s : State) : State :=
  match recorder s with
  | Some _ => set_recorder s (Some Inactive)
  | None => s
  end.

(** The [draw] callback.  The pending frame request is consumed by the
    call; [requestAnimationFrame(draw)] at the end files the next one.  When
    [imageElements[currentScene]] is [undefined] the canvas has already been
    cleared and reading [image.width] throws a TypeError out of the
    callback, so nothing is drawn and no further frame is requested. *)
Definition draw (s : State) (now : Q) : State :=
  let elapsed := elapsedTime (Fin (startTime s)) (Fin now) in
  let s := set_rafPending s false in
  if (elapsed >=? audioDuration)%js then recorder_stop s
  else
    let sd := sceneDuration audioDuration (length images) in
    let scene := sceneIndex sd (length images) elapsed in
    let s := set_currentScene s scene in
    let s := set_canvas s (canvas s ++ [clear_black]) in
    match index (imageElements s) scene with
    | None => s
    | Some image =>
        let r := destRect canvas_width canvas_height
                          (of_Z (width image)) (of_Z (height image))
                          (scale (sceneProgress sd elapsed)) in
        set_rafPending (set_canvas s (canvas s ++ [DrawImage image r])) true
    end.

(** The code after [await Promise.all(...)], run with the decoded images.
    [canvas.captureStream] and [new MediaRecorder] throw on a host without
    them; the audio source is started in between. *)
Definition resume (s : State) (elements : list HTMLImageElement) : State :=
  let s := set_imageElements s elements in
  if negb (captureStream_available host)
  then set_executor s (Threw (TypeError "canvas.captureStream is not a function"))
  else
    let s := set_audioStarted s true in
    if negb (recorder_mimeType_supported host)
    then set_executor s (Threw NotSupportedError)
    else
      let s := set_recorder s (Some Recording) in
      let s := set_currentScene s (Fin 0) in
      let s := set_startTime s (performance_now host) in
      let s := set_rafPending s true in
      set_executor s Completed.

(** [recorder.onstop]: build the blob from the chunks and resolve.  The
    recorder is inactive when the host delivers the stop event. *)
Definition onstop (s : State) : State :=
  let blob := new_Blob (chunks s) "video/webm" in
  let s := set_recorder s (Some Inactive) in
  let s := set_constructed s (constructed s ++ [blob]) in
  set_promise s (resolve (promise s) blob).

(** [recorder.onerror = (e) => reject(e)] *)
Definition onerror (s : State) (e : string) : State :=
  set_promise s (reject (promise s) (RecorderErrorEvent e)).

(** [recorder.ondataavailable = (e) => chunks.push(e.data)] *)
Definition ondataavailable (s : State) (data : Blob) : State :=
  set_chunks s (chunks s ++ [data]).

(** The state once the call [assembleVideo(images, audioBuffer,
    audioContext)] has returned its promise and the microtasks it queued
    have run.  Without a 2d context the promise is rejected at once.
    Otherwise one image element per input starts loading and the executor
    waits; [Promise.all] of no promise at all is already fulfilled, so with
    no image the rest of the executor runs before any host event. *)
Definition assembleVideo : State :=
  let s := mkState Pending AwaitingImages [] [] false None [] 0 false
                   (Fin 0) [] [] in
  if negb (context2d_available host)
  then set_executor
         (set_promise s (reject (promise s) (Error "Canvas context not available")))
         Completed
  else
    let s := set_loads s (map (fun _ => Pending) images) in
    match images with
    | [] => resume s []
    | _ :: _ => s
    end.

(** One host event.  [None]: the host cannot deliver this event in this
    state (an image fires [load] or [error] once, a frame callback runs only
    when requested, the recorder's events need a recorder). *)
Definition step (s : State) (e : Event) : option State :=
  match e with
  | ImgLoad i w h =>
      match nth_error (loads s) i, nth_error images i with
      | Some Pending, Some img =>
          let el := mkElement (dataURL img) w h in
          let s := set_loads s (settle i (Fulfilled el) (loads s)) in
          match executor s, all_fulfilled (loads s) with
          | AwaitingImages, Some elements => Some (resume s elements)
          | _, _ => Some s
          end
      | _, _ => None
      end
  | ImgError i =>
      match nth_error (loads s) i with
      | Some Pending =>
          let r := ImageErrorEvent i in
          let s := set_loads s (settle i (Rejected r) (loads s)) in
          match executor s with
          | AwaitingImages => Some (set_executor s (Threw r))
          | _ => Some s
          end
      | _ => None
      end
  | AnimationFrame now =>
      if rafPending s then Some (draw s now) else None
  | DataAvailable data =>
      match recorder s with
      | Some _ => Some (ondataavailable s data)
      | None => None
      end
  | Stop =>
      match recorder s with
      | Some _ => Some (onstop s)
      | None => None
      end
  | RecorderError e =>
      match recorder s with
      | Some _ => Some (onerror s e)
      | None => None
      end
  end.

Fixpoint run_from (s : State) (events : list Event) : option State :=
  match events with
  | [] => Some s
  | e :: rest =>
      match step s e with
      | Some s' => run_from s' rest
      | None => None
      end
  end.

(** The state after the call and the given events. *)
Definition run (events : list Event) : option State :=
  run_from assembleVideo events.

End AssembleVideo.

(* ================================================================= *)
(** ** Observations on traces and states *)

(** The chunks the recorder emitted, in emission order. *)
Fixpoint emitted (events : list Event) : list Blob :=
  match events with
  | [] => []
  | DataAvailable data :: rest => data :: emitted rest
  | _ :: rest => emitted rest
  end.

Definition is_DrawImage (op : CanvasOp) : bool :=
  match op with
  | DrawImage _ _ => true
  | FillRect _ _ _ _ _ => false
  end.

(** The frames rendered so far: the images drawn on the canvas. *)
Definition frames (s : State) : list CanvasOp :=
  filter is_DrawImage (canvas s).

(** Nothing of the recording side exists: no recorder, no chunk, no blob,
    nothing drawn, no frame requested. *)
Definition nothing_recorded (s : State) : Prop :=
  recorder s = None /\ chunks s = [] /\ constructed s = []
  /\ canvas s = [] /\ rafPending s = false.

Section Phases.

Variable host : Host.
Variable images : list GeneratedImage.

(** Every decoded element sits at the position of the image it was decoded
    from. *)
Definition decoded_in_order (ps : list (Promise HTMLImageElement)) : Prop :=
  forall i el, nth_error ps i = Some (Fulfilled el) ->
    exists img, nth_error images i = Some img /\ src el = dataURL img.

(** The call was rejected for want of a drawing context. *)
Definition phase_no_context (s : State) : Prop :=
  context2d_available host = false
  /\ promise s = Rejected (Error "Canvas context not available")
  /\ executor s = Completed /\ loads s = [] /\ imageElements s = []
  /\ audioStarted s = false /\ nothing_recorded s.

(** The executor is suspended at [await Promise.all(...)]. *)
Definition phase_awaiting (s : State) : Prop :=
  context2d_available host = true
  /\ promise s = Pending /\ executor s = AwaitingImages
  /\ length (loads s) = length images
  /\ decoded_in_order (loads s)
  /\ all_fulfilled (loads s) = None
  /\ (forall i r, nth_error (loads s) i <> Some (Rejected r))
  /\ imageElements s = [] /\ audioStarted s = false
  /\ nothing_recorded s.

(** The executor ended with an exception: an image failed to decode, or
    every image was decoded and the host lacks the capture stream or the
    recorder's mime type.  The promise of the caller is still pending. *)
Definition phase_threw (s : State) : Prop :=
  context2d_available host = true
  /\ promise s = Pending /\ (exists r, executor s = Threw r)
  /\ length (loads s) = length images
  /\ decoded_in_order (loads s)
  /\ ((exists i r, nth_error (loads s) i = Some (Rejected r))
      \/ (all_fulfilled (loads s) = Some (imageElements s)
          /\ (captureStream_available host = false
              \/ recorder_mimeType_supported host = false)))
  /\ nothing_recorded s.

(** The recorder exists and has been started. *)
Definition phase_recording (s : State) : Prop :=
  context2d_available host = true
  /\ captureStream_available host = true
  /\ recorder_mimeType_supported host = true
  /\ executor s = Completed
  /\ (exists r, recorder s = Some r)
  /\ length (loads s) = length images
  /\ decoded_in_order (loads s)
  /\ all_fulfilled (loads s) = Some (imageElements s)
  /\ audioStarted s = true
  /\ startTime s = performance_now host.

Definition phase (s : State) : Prop :=
  phase_no_context s \/ phase_awaiting s \/ phase_threw s
  \/ phase_recording s.

End Phases.

(** The third scenario of the specification as it is worded: after an error
    of the recorder in mid-run the result is rejected and the chunks are
    never concatenated, that is, no blob is ever built. *)
Definition error_discards_chunks (host : Host) (images : list GeneratedImage)
    (audioBuffer : AudioBuffer) : Prop :=
  forall (pre post : list Event) (err : string) (s0 s : State),
    run host images audioBuffer pre = Some s0 ->
    promise s0 = Pending ->
    run host images audioBuffer (pre ++ RecorderError err :: post) = Some s ->
    promise s = Rejected (RecorderErrorEvent err) /\ constructed s = [].

(* ================================================================= *)
(** ** Sample inputs *)

Definition capable_host : Host := mkHost true true true 5000.

(** A browser whose recorder cannot write vp9 and opus into webm. *)
Definition host_without_codec : Host := mkHost true true false 5000.

Definition png : GeneratedImage := mkImage "iVBORw0KGgo=" "image/png".

(** Nine seconds of narration. *)
Definition narration : AudioBuffer := mkAudio 9.

Definition chunk1 : Blob := mkBlob [Byte.x1a; Byte.x45] "video/webm".
Definition chunk2 : Blob := mkBlob [Byte.xdf; Byte.xa3] "video/webm".

(* ================================================================= *)
(** ** Usage limits and credits (components/Auth.tsx)

    The state of [AuthProvider] and the functions it hands out through
    [useAuth].  The counters and the credits hold integers.  The entry
    [usageLimits] of [localStorage] is modelled by what this code writes
    there: a usage record, or nothing. *)

Module Auth.

(** [keyof Usage] *)
Inductive UsageType : Type := Image | Video | Audio | FacelessVideo.

Record Usage : Type := mkUsage {
  image : Z;
  video : Z;
  audio : Z;
  facelessVideo : Z
}.

(** [usage[type]] *)
Definition get (u : Usage) (type : UsageType) : Z :=
  match type with
  | Image => image u
  | Video => video u
  | Audio => audio u
  | FacelessVideo => facelessVideo u
  end.

(** [{ ...u, [type]: v }] *)
Definition set (u : Usage) (type : UsageType) (v : Z) : Usage :=
  match type with
  | Image => mkUsage v (video u) (audio u) (facelessVideo u)
  | Video => mkUsage (image u) v (audio u) (facelessVideo u)
  | Audio => mkUsage (image u) (video u) v (facelessVideo u)
  | FacelessVideo => mkUsage (image u) (video u) (audio u) v
  end.

Definition FREE_LIMITS : Usage := mkUsage 5 2 3 1.

Definition no_usage : Usage := mkUsage 0 0 0 0.

Record State : Type := mkState {
  isAuthenticated : bool;
  usage : Usage;
  credits : Z;
  isModalOpen : bool;
  localStorage : option Usage
}.

(** The state of a freshly mounted provider, before its effect has run. *)
Definition initial (storage : option Usage) : State :=
  mkState false no_usage 100 false storage.

(** The effect run on mount: what is stored replaces the counters. *)
Definition mount (s : State) : State :=
  match localStorage s with
  | Some stored =>
      mkState (isAuthenticated s) stored (credits s) (isModalOpen s)
              (localStorage s)
  | None => s
  end.

(** Loading the page anew: only [localStorage] survives. *)
Definition reload (s : State) : State := mount (initial (localStorage s)).

Definition login (s : State) : State :=
  mkState true (usage s) (credits s) false (localStorage s).

Definition logout (s : State) : State :=
  mkState false no_usage (credits s) (isModalOpen s) None.

(** [const cost = type === 'facelessVideo' ? 10 : 1] *)
Definition cost (type : UsageType) : Z :=
  match type with FacelessVideo => 10 | _ => 1 end.

(** [incrementUsage(type)].  [seen] is the [isAuthenticated] that the
    callback closed over; the updaters of [setCredits] and [setUsage] work
    on the current state. *)
Definition incrementUsage (seen : bool) (type : UsageType) (s : State) : State :=
  if seen
  then mkState (isAuthenticated s) (usage s)
               (if (cost type <=? credits s)%Z then (credits s - cost type)%Z else 0%Z)
               (isModalOpen s) (localStorage s)
  else
    let newUsage := set (usage s) type (get (usage s) type + 1)%Z in
    mkState (isAuthenticated s) newUsage (credits s) (isModalOpen s)
            (Some newUsage).

(** [checkLimit(type)] *)
Definition checkLimit (s : State) (type : UsageType) : bool :=
  if isAuthenticated s
  then (cost type <=? credits s)%Z
  else (get (usage s) type <? get FREE_LIMITS type)%Z.

Definition showLoginModal (s : State) : State :=
  if isAuthenticated s then s
  else mkState (isAuthenticated s) (usage s) (credits s) true (localStorage s).

(** [Math.max(0, FREE_LIMITS.x - usage.x)], the count the header shows *)
Definition free_left (s : State) (type : UsageType) : Z :=
  Z.max 0 (get FREE_LIMITS type - get (usage s) type).

(** What a visitor can do to the provider. *)
Inductive Action : Type :=
| Use (type : UsageType)
| Reload
| Login
| Logout
| ShowLoginModal.

Definition act (s : State) (a : Action) : State :=
  match a with
  | Use type => incrementUsage (isAuthenticated s) type s
  | Reload => reload s
  | Login => login s
  | Logout => logout s
  | ShowLoginModal => showLoginModal s
  end.

Definition acts (s : State) (l : list Action) : State := fold_left act l s.

(** How often a feature was used in a list of actions. *)
Fixpoint uses (type : UsageType) (l : list Action) : Z :=
  match l with
  | [] => 0
  | Use t :: rest =>
      match type, t with
      | Image, Image | Video, Video | Audio, Audio
      | FacelessVideo, FacelessVideo => 1 + uses type rest
      | _, _ => uses type rest
      end
  | _ :: rest => uses type rest
  end.

Definition is_visit (a : Action) : bool :=
  match a with Use _ | Reload | ShowLoginModal => true | Login | Logout => false end.

End Auth.

(* ================================================================= *)
(** ** The edit history of the photo editor (components/ImageEditor.tsx) *)

Module Editor.

Record State (Edit : Type) : Type := mkState {
  editHistory : list Edit;
  currentHistoryIndex : Z
}.
Arguments mkState {Edit} _ _.
Arguments editHistory {Edit} _.
Arguments currentHistoryIndex {Edit} _.

(** [useState<Edit[]>([])] and [useState<number>(-1)] *)
Definition initial {Edit : Type} : State Edit := mkState [] (-1).

(** [arr.slice(0, end)]: a negative [end] counts from the end. *)
Definition slice0 {A : Type} (arr : list A) (stop : Z) : list A :=
  if (stop <? 0)%Z
  then firstn (Z.to_nat (Z.of_nat (length arr) + stop)) arr
  else firstn (Z.to_nat stop) arr.

(** The success branch of [handleGenerate]: the edits after the current
    one are dropped, the new edit is pushed and becomes the current one.
    The handler reads the history and the index of the render in which it
    was started; the model takes the actions one at a time, with no undo
    or redo while a request is under way. *)
Definition addEdit {Edit : Type} (newEdit : Edit) (s : State Edit) : State Edit :=
  let newHistory := slice0 (editHistory s) (currentHistoryIndex s + 1) ++ [newEdit] in
  mkState newHistory (Z.of_nat (length newHistory) - 1).

Definition handleUndo {Edit : Type} (s : State Edit) : State Edit :=
  if (0 <? currentHistoryIndex s)%Z
  then mkState (editHistory s) (currentHistoryIndex s - 1)
  else s.

Definition handleRedo {Edit : Type} (s : State Edit) : State Edit :=
  if (currentHistoryIndex s <? Z.of_nat (length (editHistory s)) - 1)%Z
  then mkState (editHistory s) (currentHistoryIndex s + 1)
  else s.

(** [editHistory[currentHistoryIndex]] *)
Definition currentEditedImage {Edit : Type} (s : State Edit) : option Edit :=
  index (editHistory s) (of_Z (currentHistoryIndex s)).

(** The effect on [initialImage]: a new source image empties the history. *)
Definition newImage {Edit : Type} (s : State Edit) : State Edit := mkState [] (-1).

Inductive Action (Edit : Type) : Type :=
| AddEdit (newEdit : Edit)
| Undo
| Redo
| NewImage.
Arguments AddEdit {Edit} _.
Arguments Undo {Edit}.
Arguments Redo {Edit}.
Arguments NewImage {Edit}.

Definition act {Edit : Type} (s : State Edit) (a : Action Edit) : State Edit :=
  match a with
  | AddEdit e => addEdit e s
  | Undo => handleUndo s
  | Redo => handleRedo s
  | NewImage => newImage s
  end.

Definition acts {Edit : Type} (s : State Edit) (l : list (Action Edit)) : State Edit :=
  fold_left act l s.

End Editor.

(* ================================================================= *)
(** ** The generator component (components/FacelessVideoGenerator.tsx)

    [handleGenerate] awaits four promises in turn.  What an awaited promise
    has done so far is settled with a value, failed with what was thrown, or
    nothing yet; in the last case the handler is suspended at that [await].
    The calls of the generative service are taken as given; what the
    component does with their answers is modelled. *)

Module Generator.

Inductive Await (A : Type) : Type :=
| Settled (value : A)
| Failed (err : Reason)
| Waiting.
Arguments Settled {A} value.
Arguments Failed {A} err.
Arguments Waiting {A}.

(** What [await] sees of a promise. *)
Definition awaited {A : Type} (p : Promise A) : Await A :=
  match p with
  | Pending => Waiting
  | Fulfilled v => Settled v
  | Rejected r => Failed r
  end.

Record Scene : Type := mkScene {
  scene : Z;
  narration : string;
  visual_prompt : string
}.

Record ScriptData : Type := mkScript {
  title : string;
  script : list Scene;
  youtube_title : string;
  youtube_description : string;
  youtube_tags : list string
}.

(** The part of a response of the service that the component reads. *)
Record InlineData : Type := mkInline {
  data : string;
  inlineMimeType : string
}.

Record Part : Type := mkPart {
  inlineData : option InlineData;
  text : option string
}.

Record Content : Type := mkContent { parts : option (list Part) }.

Record Candidate : Type := mkCandidate { content : option Content }.

Record Response : Type := mkResponse { candidates : option (list Candidate) }.

(** [res.candidates?.[0]?.content?.parts?.[0]] *)
Definition firstPart (res : Response) : option Part :=
  match candidates res with
  | Some (candidate :: _) =>
      match content candidate with
      | Some c =>
          match parts c with
          | Some (part :: _) => Some part
          | _ => None
          end
      | None => None
      end
  | _ => None
  end.

Definition image_failed : Reason := Error "Image generation failed for a scene.".

(** The callback of [responses.map] in [generateImages]. *)
Definition imageOf (res : Response) : option GeneratedImage :=
  match firstPart res with
  | Some part =>
      match inlineData part with
      | Some d => Some (mkImage (data d) (inlineMimeType d))
      | None => None
      end
  | None => None
  end.

(** [responses.map(res => ...)]: the images in the order of the responses,
    or the exception of the first response without inline data. *)
Fixpoint imagesOf (responses : list Response) : Await (list GeneratedImage) :=
  match responses with
  | [] => Settled []
  | res :: rest =>
      match imageOf res with
      | None => Failed image_failed
      | Some img =>
          match imagesOf rest with
          | Settled imgs => Settled (img :: imgs)
          | other => other
          end
      end
  end.

(** [`A cinematic, high-resolution image for a YouTube video: ${scene.visual_prompt}`] *)
Definition imagePrompt (s : Scene) : string :=
  ("A cinematic, high-resolution image for a YouTube video: " ++ visual_prompt s)%string.

(** [scriptData.script.map(s => s.narration).join(' ')] *)
Definition fullNarration (sd : ScriptData) : string :=
  String.concat " " (map narration (script sd)).

(** The service and the absent helpers, as the component calls them: the
    script for a topic, [Promise.all] of the image requests for a list of
    prompts, the speech request for a text, the decoding of its audio
    ([decode] and [decodeAudioData] of utils/audioUtils), and
    [assembleVideo]. *)
Record Services : Type := mkServices {
  scriptFor : string -> Await ScriptData;
  imageResponses : list string -> Await (list Response);
  audioResponse : string -> Await Response;
  decodeAudio : string -> Await AudioBuffer;
  assemble : list GeneratedImage -> AudioBuffer -> Await Blob
}.

(** [generateImages(ai, scenes)] *)
Definition generateImages (svc : Services) (scenes : list Scene)
    : Await (list GeneratedImage) :=
  match imageResponses svc (map imagePrompt scenes) with
  | Settled responses => imagesOf responses
  | Failed err => Failed err
  | Waiting => Waiting
  end.

Definition audio_failed : Reason := Error "Audio generation failed.".

(** [response.candidates?.[0]?.content?.parts?.[0]?.inlineData?.data] *)
Definition base64Audio (res : Response) : option string :=
  match firstPart res with
  | Some part =>
      match inlineData part with
      | Some d => Some (data d)
      | None => None
      end
  | None => None
  end.

(** [generateAudio(ai, narration)]; the audio context exists when it is
    called.  An empty string is as good as none for [!base64Audio]. *)
Definition generateAudio (svc : Services) (narrationText : string)
    : Await AudioBuffer :=
  match audioResponse svc
          ("Read with a clear, engaging, and professional tone for a YouTube video: "
             ++ narrationText)%string with
  | Settled res =>
      match base64Audio res with
      | Some EmptyString | None => Failed audio_failed
      | Some b64 => decodeAudio svc b64
      end
  | Failed err => Failed err
  | Waiting => Waiting
  end.

(** What the error banner shows: a fixed text, or
    [`An error occurred: ${err.message}`] for the [err] that was caught. *)
Inductive ErrorText : Type :=
| Message (text : string)
| Occurred (err : Reason).

(** The state of the component; [videoUrl] stands for the object URL of
    the blob it holds, [audioContextOpen] for an [AudioContext] that was
    created and not yet closed. *)
Record UI : Type := mkUI {
  isLoading : bool;
  error : option ErrorText;
  progress : nat * string;
  scriptData : option ScriptData;
  videoUrl : option Blob;
  audioContextOpen : bool
}.

Definition idle : UI := mkUI false None (0%nat, ""%string) None None false.

Definition setProgress (ui : UI) (step : nat) (message : string) : UI :=
  mkUI (isLoading ui) (error ui) (step, message) (scriptData ui) (videoUrl ui)
       (audioContextOpen ui).

Definition setError (ui : UI) (e : option ErrorText) : UI :=
  mkUI (isLoading ui) e (progress ui) (scriptData ui) (videoUrl ui)
       (audioContextOpen ui).

(** The [catch] block. *)
Definition catch (ui : UI) (err : Reason) : UI :=
  setError ui (Some (Occurred err)).

(** The [finally] block. *)
Definition finally (ui : UI) : UI :=
  mkUI false (error ui) (0%nat, ""%string) (scriptData ui) (videoUrl ui) false.

(** [handleGenerate], with the state of the auth provider it reads and
    writes through [checkLimit], [showLoginModal] and [incrementUsage]. *)
Definition handleGenerate (svc : Services) (apiKey : bool) (topic : string)
    (auth : Auth.State) (ui : UI) : UI * Auth.State :=
  if negb (Auth.checkLimit auth Auth.FacelessVideo)
  then (ui, Auth.showLoginModal auth)
  else
    match topic with
    | EmptyString =>
        (setError ui (Some (Message "Please enter a video title or topic.")), auth)
    | _ =>
        if negb apiKey
        then (setError ui (Some (Message "API key is not configured.")), auth)
        else
          let ui := mkUI true None (progress ui) None None true in
          let ui := setProgress ui 1 "Writing script..." in
          match scriptFor svc topic with
          | Waiting => (ui, auth)
          | Failed err => (finally (catch ui err), auth)
          | Settled sd =>
              let ui := mkUI (isLoading ui) (error ui) (progress ui) (Some sd)
                             (videoUrl ui) (audioContextOpen ui) in
              let ui := setProgress ui 2 "Generating visuals..." in
              match generateImages svc (script sd) with
              | Waiting => (ui, auth)
              | Failed err => (finally (catch ui err), auth)
              | Settled images =>
                  let ui := setProgress ui 3 "Creating voiceover..." in
                  match generateAudio svc (fullNarration sd) with
                  | Waiting => (ui, auth)
                  | Failed err => (finally (catch ui err), auth)
                  | Settled audioBuffer =>
                      let ui := setProgress ui 4 "Assembling video..." in
                      match assemble svc images audioBuffer with
                      | Waiting => (ui, auth)
                      | Failed err => (finally (catch ui err), auth)
                      | Settled videoBlob =>
                          let ui := mkUI (isLoading ui) (error ui) (progress ui)
                                         (scriptData ui) (Some videoBlob)
                                         (audioContextOpen ui) in
                          (finally ui,
                           Auth.incrementUsage (Auth.isAuthenticated auth)
                                               Auth.FacelessVideo auth)
                      end
                  end
              end
          end
    end.

(** [str.replace(/ /g, '_')] *)
Fixpoint replace_spaces (str : string) : string :=
  match str with
  | EmptyString => EmptyString
  | String c rest =>
      String (if Ascii.eqb c (Ascii.ascii_of_nat 32)
              then Ascii.ascii_of_nat 95 else c)
             (replace_spaces rest)
  end.

(** [`${result.scriptData?.youtube_title.replace(/ /g, '_') || 'video'}.mp4`],
    the name under which the video is offered for download *)
Definition downloadName (sd : option ScriptData) : string :=
  let stem :=
    match sd with
    | Some d =>
        match replace_spaces (youtube_title d) with
        | EmptyString => "video"%string
        | name => name
        end
    | None => "video"%string
    end in
  (stem ++ ".mp4")%string.

End Generator.

(** *** Sample answers of the service *)

Definition sample_script : Generator.ScriptData :=
  Generator.mkScript "Space"
    [Generator.mkScene 1 "Rockets rise." "a rocket on the pad";
     Generator.mkScene 2 "Probes travel far." "a probe near Saturn"]
    "The History of Space" "How people left the ground."
    ["space"%string; "history"%string].

(** A response whose first part is an image. *)
Definition image_response (b64 : string) : Generator.Response :=
  Generator.mkResponse (Some [Generator.mkCandidate (Some (Generator.mkContent
    (Some [Generator.mkPart (Some (Generator.mkInline b64 "image/png")) None])))]).

(** A response that says something first and gives the image second. *)
Definition text_then_image_response (b64 : string) : Generator.Response :=
  Generator.mkResponse (Some [Generator.mkCandidate (Some (Generator.mkContent
    (Some [Generator.mkPart None (Some "Here is the image you asked for."%string);
           Generator.mkPart (Some (Generator.mkInline b64 "image/png")) None])))]).

(** A service that answers every request: the sample script, the same
    picture for every image prompt, speech that decodes to nine seconds,
    and the given outcome of the assembly. *)
Definition sample_service (picture : Generator.Response)
    (video : Generator.Await Blob) : Generator.Services :=
  Generator.mkServices
    (fun _ => Generator.Settled sample_script)
    (fun prompts => Generator.Settled (map (fun _ => picture) prompts))
    (fun _ => Generator.Settled (image_response "UklGRiQAAABXQVZF"))
    (fun _ => Generator.Settled narration)
    (fun _ _ => video).

(* ================================================================= *)
(** ** The promo video generator (components/VideoGenerator.tsx)

    Two loops of [handleGenerateVideo]: the interval that rotates the
    loading message every five seconds, and the loop that asks for the
    state of the operation every ten seconds until it is done. *)

Module VideoGenerator.

Definition LOADING_MESSAGES : list string :=
  ["Warming up the video engine..."%string;
   "Sending your vision to the AI..."%string;
   "Generating initial frames..."%string;
   "Rendering high-resolution scenes..."%string;
   "Adding cinematic touches..."%string;
   "Finalizing your video... This can take a few minutes."%string].

(** The callback of [setInterval]:
    [messageIndex = (messageIndex + 1) % LOADING_MESSAGES.length] *)
Definition nextMessageIndex (messageIndex : number) : number :=
  ((messageIndex + Fin 1) mod of_nat (length LOADING_MESSAGES))%js.

(** [messageIndex] when the interval has fired [ticks] times; [let
    messageIndex = 0] before the first. *)
Fixpoint messageIndex (ticks : nat) : number :=
  match ticks with
  | O => Fin 0
  | S n => nextMessageIndex (messageIndex n)
  end.

(** [LOADING_MESSAGES[messageIndex]], what [setLoadingMessage] is given;
    [None] stands for [undefined]. *)
Definition loadingMessage (ticks : nat) : option string :=
  index LOADING_MESSAGES (messageIndex ticks).

(** What the loop reads of an operation. *)
Record Operation : Type := mkOperation { done : bool }.

(** Where the polling loop is: it has left with an operation that is done,
    [getVideosOperation] has thrown, or it is waiting for the next answer.
    [polls] counts the calls of [getVideosOperation], each made after a
    sleep of ten seconds. *)
Inductive Polled : Type :=
| Finished (operation : Operation) (polls : nat)
| Thrown (err : Reason) (polls : nat)
| Polling (polls : nat).

(** [while (!operation.done) { await sleep(10000); operation = await
    ai.operations.getVideosOperation({ operation }) }], run against the
    answers that [getVideosOperation] has given so far. *)
Fixpoint poll (operation : Operation) (answers : list (Reason + Operation))
    (polls : nat) : Polled :=
  if done operation then Finished operation polls
  else
    match answers with
    | [] => Polling polls
    | inl err :: _ => Thrown err (S polls)
    | inr next :: rest => poll next rest (S polls)
    end.

End VideoGenerator.

(* ================================================================= *)
(** ** Facts about numbers *)

Lemma eqv_refl (a : number) : (a == a)%js.
Proof. destruct a; simpl; auto. reflexivity. Qed.

Lemma eqv_sym (a b : number) : (a == b)%js -> (b == a)%js.
Proof. destruct a, b; simpl; auto. intro H; symmetry; exact H. Qed.



Lemma lt_eqv_compat (a a' b b' : number) :
  (a == a')%js -> (b == b')%js -> (a < b)%js -> (a' < b')%js.
Proof.
  destruct a, a', b, b'; simpl; auto; try contradiction.
  intros H1 H2 H. rewrite <- H1, <- H2. exact H.
Qed.

Lemma Qeq_bool_false (x y : Q) : ~ x == y -> Qeq_bool x y = false.
Proof.
  intro H. destruct (Qeq_bool x y) eqn:E; [|reflexivity].
  apply Qeq_bool_eq in E. contradiction.
Qed.

Lemma Qle_bool_false (x y : Q) : Qle_bool x y = false -> y < x.
Proof.
  intro H. apply Qnot_le_lt. intro L.
  apply Qle_bool_iff in L. congruence.
Qed.

Lemma div_Fin (x y : Q) : ~ y == 0 -> (Fin x / Fin y)%js = Fin (x / y).
Proof. intro H. simpl. rewrite (Qeq_bool_false H). reflexivity. Qed.


Lemma inject_nat_pos (N : nat) : (1 <= N)%nat -> 0 < inject_Z (Z.of_nat N).
Proof.
  intro H. change 0 with (inject_Z 0). rewrite <- Zlt_Qlt. lia.
Qed.

Lemma Qdiv_pos (a b : Q) : 0 < a -> 0 < b -> 0 < a / b.
Proof.
  intros Ha Hb. apply Qlt_shift_div_l; [exact Hb|]. lra.
Qed.

Lemma Qdiv_nonneg (a b : Q) : 0 <= a -> 0 < b -> 0 <= a / b.
Proof.
  intros Ha Hb. apply Qle_shift_div_l; [exact Hb|]. lra.
Qed.


Lemma Qfloor_nonneg (q : Q) : 0 <= q -> (0 <= Qfloor q)%Z.
Proof.
  intro H. rewrite <- (Qfloor_Z 0). apply Qfloor_resp_le. exact H.
Qed.


(** The per-scene duration is a positive rational when there is a scene
    and the audio has a positive length. *)
Lemma spec_sceneDuration_pos (D : Q) (N : nat) :
  (1 <= N)%nat -> 0 < D -> 0 < spec_sceneDuration D N.
Proof.
  intros HN HD. apply Qdiv_pos; [exact HD | apply inject_nat_pos; exact HN].
Qed.

Lemma sceneDuration_Fin (D : Q) (N : nat) :
  (1 <= N)%nat ->
  sceneDuration (Fin D) N = Fin (spec_sceneDuration D N).
Proof.
  intro HN. unfold sceneDuration, of_nat, of_Z, spec_sceneDuration.
  apply div_Fin. pose proof (inject_nat_pos HN). lra.
Qed.

Lemma sceneIndex_Fin (sd : Q) (N : nat) (t : Q) :
  ~ sd == 0 ->
  (sceneIndex (Fin sd) N (Fin t)
   == of_Z (Z.min (Qfloor (t / sd)) (Z.of_nat N - 1)))%js.
Proof.
  intro H. unfold sceneIndex. rewrite (div_Fin _ H).
  unfold of_nat, of_Z. simpl.
  destruct (Qle_bool _ _) eqn:E; simpl.
  - apply Qle_bool_iff in E.
    assert (L : (Qfloor (t / sd) <= Z.of_nat N - 1)%Z).
    { rewrite Zle_Qle. unfold Z.sub. rewrite inject_Z_plus. exact E. }
    rewrite Z.min_l by exact L. reflexivity.
  - apply Qle_bool_false in E.
    assert (L : (Z.of_nat N - 1 < Qfloor (t / sd))%Z).
    { rewrite Zlt_Qlt. unfold Z.sub. rewrite inject_Z_plus. exact E. }
    rewrite Z.min_r by (apply Z.lt_le_incl; exact L).
    unfold Z.sub. rewrite inject_Z_plus. reflexivity.
Qed.

(** On a run with a scene and a positive duration, the scene index of the
    code is the scene index of the specification. *)
Lemma sceneIndex_is_spec (N : nat) (D t : Q) :
  (1 <= N)%nat -> 0 < D ->
  (sceneIndex (sceneDuration (Fin D) N) N (Fin t)
   == of_Z (spec_sceneIndex D N t))%js.
Proof.
  intros HN HD. rewrite (sceneDuration_Fin D HN).
  apply sceneIndex_Fin. pose proof (spec_sceneDuration_pos HN HD). lra.
Qed.

Lemma spec_sceneIndex_range (N : nat) (D t : Q) :
  (1 <= N)%nat -> 0 < D -> 0 <= t ->
  (0 <= spec_sceneIndex D N t < Z.of_nat N)%Z.
Proof.
  intros HN HD Ht. unfold spec_sceneIndex.
  pose proof (spec_sceneDuration_pos HN HD) as Hsd.
  pose proof (Qfloor_nonneg (Qdiv_nonneg Ht Hsd)). lia.
Qed.











(* ================================================================= *)
(** ** Scene scheduler *)





(** The first scenario of the specification: three images and nine seconds
    of audio give scenes of three seconds; at [t = 3.0] the scheduler reports
    scene 1 with progress 0, at [t = 8.9] scene 2. *)
Example scenario_three_images_nine_seconds :
  sceneDuration (Fin 9) 3 = Fin (9 / 3)
  /\ sceneIndex (sceneDuration (Fin 9) 3) 3 (Fin 3) = Fin 1
  /\ (sceneProgress (sceneDuration (Fin 9) 3) (Fin 3) == Fin 0)%js
  /\ sceneIndex (sceneDuration (Fin 9) 3) 3 (Fin (89 # 10)) = Fin 2.
Proof. repeat split. Qed.

(* ================================================================= *)
(** ** Ken Burns animator *)



(* ================================================================= *)
(** ** Facts about promises and [Promise.all] *)

Lemma settle_length {A : Type} (i : nat) (p : Promise A) (ps : list (Promise A)) :
  length (settle i p ps) = length ps.
Proof.
  revert i. induction ps as [|q ps IH]; intros [|i]; simpl; auto.
Qed.

Lemma nth_error_settle_same {A : Type} (i : nat) (p q : Promise A)
    (ps : list (Promise A)) :
  nth_error ps i = Some q -> nth_error (settle i p ps) i = Some p.
Proof.
  revert i. induction ps as [|x ps IH]; intros [|i]; simpl; try discriminate; auto.
Qed.

Lemma nth_error_settle_other {A : Type} (i j : nat) (p : Promise A)
    (ps : list (Promise A)) :
  i <> j -> nth_error (settle i p ps) j = nth_error ps j.
Proof.
  revert i j. induction ps as [|x ps IH]; intros [|i] [|j] H; simpl; auto.
  congruence.
Qed.

Lemma all_fulfilled_nth {A : Type} (ps : list (Promise A)) (vs : list A) :
  all_fulfilled ps = Some vs ->
  forall i, nth_error ps i = option_map Fulfilled (nth_error vs i).
Proof.
  revert vs. induction ps as [|p ps IH]; simpl; intros vs H i.
  - injection H as <-. destruct i; reflexivity.
  - destruct p as [|v|r]; try discriminate.
    destruct (all_fulfilled ps) as [vs'|] eqn:E; try discriminate.
    injection H as <-. destruct i; simpl; [reflexivity | apply IH; reflexivity].
Qed.

Lemma all_fulfilled_length {A : Type} (ps : list (Promise A)) (vs : list A) :
  all_fulfilled ps = Some vs -> length vs = length ps.
Proof.
  revert vs. induction ps as [|p ps IH]; simpl; intros vs H.
  - injection H as <-. reflexivity.
  - destruct p as [|v|r]; try discriminate.
    destruct (all_fulfilled ps) as [vs'|] eqn:E; try discriminate.
    injection H as <-. simpl. f_equal. apply IH. reflexivity.
Qed.

Lemma all_fulfilled_settled {A : Type} (ps : list (Promise A)) (vs : list A)
    (i : nat) (p : Promise A) :
  all_fulfilled ps = Some vs -> nth_error ps i = Some p ->
  exists v, p = Fulfilled v.
Proof.
  intros H Hi. rewrite (all_fulfilled_nth _ H) in Hi.
  destruct (nth_error vs i) as [v|]; simpl in Hi; try discriminate.
  injection Hi as <-. exists v. reflexivity.
Qed.

Lemma nth_error_all_pending {A B : Type} (l : list B) (i : nat) (p : Promise A) :
  nth_error (map (fun _ => Pending) l) i = Some p -> p = Pending.
Proof.
  revert i. induction l as [|x l IH]; intros [|i]; simpl; try discriminate.
  - intro H. injection H as <-. reflexivity.
  - apply IH.
Qed.

Lemma resolve_settled {A : Type} (p : Promise A) (v : A) :
  p <> Pending -> resolve p v = p.
Proof. destruct p; simpl; congruence. Qed.

Lemma reject_settled {A : Type} (p : Promise A) (r : Reason) :
  p <> Pending -> reject p r = p.
Proof. destruct p; simpl; congruence. Qed.

(* ================================================================= *)
(** ** Runs *)

Section Runs.

Variable host : Host.
Variable images : list GeneratedImage.
Variable audioBuffer : AudioBuffer.

Local Abbreviation step := (step host images audioBuffer).
Local Abbreviation run_from := (run_from host images audioBuffer).
Local Abbreviation run := (run host images audioBuffer).
Local Abbreviation draw := (draw images audioBuffer).
Local Abbreviation phase := (phase host images).

Lemma run_from_app (s : State) (xs ys : list Event) :
  run_from s (xs ++ ys) =
  match run_from s xs with
  | Some s' => run_from s' ys
  | None => None
  end.
Proof.
  revert s. induction xs as [|x xs IH]; intro s; simpl; [reflexivity|].
  destruct (step s x); [apply IH | reflexivity].
Qed.

Lemma run_snoc (events : list Event) (e : Event) (s' : State) :
  run (events ++ [e]) = Some s' ->
  exists s, run events = Some s /\ step s e = Some s'.
Proof.
  unfold run. rewrite run_from_app.
  destruct (run_from _ events) as [s|]; [|discriminate].
  simpl. destruct (step s e) as [s1|] eqn:E; [|discriminate].
  intro H. injection H as <-. exists s. auto.
Qed.

(** Induction along a run: what holds when the call returns and is kept by
    every event holds after every run. *)
Lemma run_ind (P : list Event -> State -> Prop) :
  P [] (assembleVideo host images) ->
  (forall events s e s',
      run events = Some s -> P events s -> step s e = Some s' ->
      P (events ++ [e]) s') ->
  forall events s, run events = Some s -> P events s.
Proof.
  intros H0 Hstep events.
  induction events as [|e events IH] using rev_ind; intros s H.
  - unfold run in H. simpl in H. injection H as <-. exact H0.
  - destruct (run_snoc _ _ H) as [s0 [Hrun He]].
    apply (Hstep events s0 e s Hrun (IH s0 Hrun) He).
Qed.

Lemma run_prefix (xs ys : list Event) (s : State) :
  run (xs ++ ys) = Some s ->
  exists s0, run xs = Some s0 /\ run_from s0 ys = Some s.
Proof.
  unfold run. rewrite run_from_app.
  destruct (run_from _ xs) as [s0|]; [|discriminate].
  intro H. exists s0. auto.
Qed.

(** *** The phases of a run *)

Lemma draw_keeps (s : State) (now : Q) :
  promise (draw s now) = promise s
  /\ executor (draw s now) = executor s
  /\ loads (draw s now) = loads s
  /\ imageElements (draw s now) = imageElements s
  /\ audioStarted (draw s now) = audioStarted s
  /\ startTime (draw s now) = startTime s
  /\ chunks (draw s now) = chunks s
  /\ constructed (draw s now) = constructed s
  /\ (forall r, recorder s = Some r -> exists r', recorder (draw s now) = Some r').
Proof.
  unfold draw, recorder_stop.
  destruct (geb _ _); simpl.
  - destruct (recorder s) eqn:E; simpl; rewrite ?E;
      repeat split; intros; eauto; discriminate.
  - destruct (index _ _); simpl; repeat split; eauto.
Qed.

Lemma resume_phase (s : State) (elements : list HTMLImageElement) :
  context2d_available host = true ->
  promise s = Pending ->
  length (loads s) = length images ->
  decoded_in_order images (loads s) ->
  all_fulfilled (loads s) = Some elements ->
  nothing_recorded s ->
  phase (resume host s elements).
Proof.
  intros Hctx Hp Hlen Hdec Hall (Hr & Hc & Hb & Hcv & Hraf).
  unfold resume.
  destruct (captureStream_available host) eqn:Hcap; simpl.
  - destruct (recorder_mimeType_supported host) eqn:Hmime; simpl.
    + right; right; right. unfold phase_recording; simpl.
      repeat split; eauto.
    + right; right; left. unfold phase_threw, nothing_recorded; simpl.
      repeat split; eauto.
  - right; right; left. unfold phase_threw, nothing_recorded; simpl.
    repeat split; eauto.
Qed.

Lemma phase_init : phase (assembleVideo host images).
Proof.
  unfold assembleVideo.
  destruct (context2d_available host) eqn:Hctx; simpl.
  - destruct images as [|img rest] eqn:Himg.
    + rewrite <- Himg. apply resume_phase; subst; simpl; auto.
      * intros [|i] el H; discriminate.
      * repeat split.
    + right; left. unfold phase_awaiting, nothing_recorded; simpl.
      repeat split; auto.
      * rewrite length_map. reflexivity.
      * intros i el H.
        destruct i; simpl in H; [discriminate|].
        apply nth_error_all_pending in H. discriminate.
      * intros i r H.
        destruct i; simpl in H; [discriminate|].
        apply nth_error_all_pending in H. discriminate.
  - left. unfold phase_no_context, nothing_recorded; simpl.
    repeat split; auto.
Qed.

Lemma decoded_in_order_load (ps : list (Promise HTMLImageElement)) (i : nat)
    (img : GeneratedImage) (w h : Z) :
  decoded_in_order images ps ->
  nth_error images i = Some img ->
  decoded_in_order images (settle i (Fulfilled (mkElement (dataURL img) w h)) ps).
Proof.
  intros Hdec Himg j el Hj.
  destruct (Nat.eq_dec i j) as [<-|Hne].
  - destruct (nth_error ps i) as [q|] eqn:E.
    + rewrite (nth_error_settle_same _ _ _ E) in Hj.
      injection Hj as <-. exists img. auto.
    + assert (L : nth_error (settle i (Fulfilled (mkElement (dataURL img) w h)) ps) i = None).
      { apply nth_error_None. rewrite settle_length.
        apply nth_error_None. exact E. }
      congruence.
  - rewrite (nth_error_settle_other _ _ Hne) in Hj. apply (Hdec j el Hj).
Qed.

Lemma decoded_in_order_error (ps : list (Promise HTMLImageElement)) (i : nat)
    (r : Reason) :
  decoded_in_order images ps ->
  nth_error ps i = Some Pending ->
  decoded_in_order images (settle i (Rejected r) ps).
Proof.
  intros Hdec Hi j el Hj.
  destruct (Nat.eq_dec i j) as [<-|Hne].
  - rewrite (nth_error_settle_same _ _ _ Hi) in Hj. discriminate.
  - rewrite (nth_error_settle_other _ _ Hne) in Hj. apply (Hdec j el Hj).
Qed.

Lemma rejected_survives (ps : list (Promise HTMLImageElement)) (i : nat)
    (p : Promise HTMLImageElement) :
  nth_error ps i = Some Pending ->
  (exists j r, nth_error ps j = Some (Rejected r)) ->
  exists j r, nth_error (settle i p ps) j = Some (Rejected r).
Proof.
  intros Hi (j & r & Hj). exists j, r.
  rewrite nth_error_settle_other; [exact Hj|].
  intros ->. congruence.
Qed.

Lemma step_phase (s s' : State) (e : Event) :
  phase s -> step s e = Some s' -> phase s'.
Proof.
  intros Hph Hstep. destruct e as [i w h|i|now|data| |err]; simpl in Hstep.
  - (* an image has loaded *)
    destruct (nth_error (loads s) i) as [[|el|r]|] eqn:Hi; try discriminate.
    destruct (nth_error images i) as [img|] eqn:Himg; try discriminate.
    destruct Hph as [Hph|[Hph|[Hph|Hph]]].
    + destruct Hph as (_ & _ & _ & Hl & _). rewrite Hl in Hi.
      destruct i; discriminate.
    + destruct Hph as (Hctx & Hp & Hx & Hlen & Hdec & Hall & Hrej & Hel & Ha & Hn).
      simpl in Hstep. rewrite Hx in Hstep.
      destruct (all_fulfilled (settle i _ (loads s))) as [elements|] eqn:Hall';
        injection Hstep as <-.
      * apply resume_phase; simpl; auto.
        -- rewrite settle_length. exact Hlen.
        -- apply decoded_in_order_load; assumption.
      * right; left. unfold phase_awaiting, nothing_recorded in *; simpl.
        repeat split; try tauto.
        -- rewrite settle_length. exact Hlen.
        -- apply decoded_in_order_load; assumption.
        -- intros j r Hj. destruct (Nat.eq_dec i j) as [<-|Hne].
           ++ rewrite (nth_error_settle_same _ _ _ Hi) in Hj. discriminate.
           ++ rewrite (nth_error_settle_other _ _ Hne) in Hj.
              apply (Hrej j r Hj).
    + destruct Hph as (Hctx & Hp & [r Hx] & Hlen & Hdec & Hwhy & Hn).
      simpl in Hstep. rewrite Hx in Hstep. injection Hstep as <-.
      right; right; left. unfold phase_threw, nothing_recorded in *; simpl.
      repeat split; try tauto; eauto.
      * rewrite settle_length. exact Hlen.
      * apply decoded_in_order_load; assumption.
      * destruct Hwhy as [Hrej|[Hall _]].
        -- left. apply rejected_survives; assumption.
        -- destruct (all_fulfilled_settled _ _ Hall Hi) as [v Hv]. discriminate.
    + destruct Hph as (_ & _ & _ & _ & _ & _ & _ & Hall & _).
      destruct (all_fulfilled_settled _ _ Hall Hi) as [v Hv]. discriminate.
  - (* an image has failed to decode *)
    destruct (nth_error (loads s) i) as [[|el|r]|] eqn:Hi; try discriminate.
    destruct Hph as [Hph|[Hph|[Hph|Hph]]].
    + destruct Hph as (_ & _ & _ & Hl & _). rewrite Hl in Hi.
      destruct i; discriminate.
    + destruct Hph as (Hctx & Hp & Hx & Hlen & Hdec & Hall & Hrej & Hel & Ha & Hn).
      simpl in Hstep. rewrite Hx in Hstep. injection Hstep as <-.
      right; right; left. unfold phase_threw, nothing_recorded in *; simpl.
      repeat split; try tauto; eauto.
      * rewrite settle_length. exact Hlen.
      * apply decoded_in_order_error; assumption.
      * left. exists i, (ImageErrorEvent i).
        apply (nth_error_settle_same _ _ _ Hi).
    + destruct Hph as (Hctx & Hp & [r Hx] & Hlen & Hdec & Hwhy & Hn).
      simpl in Hstep. rewrite Hx in Hstep. injection Hstep as <-.
      right; right; left. unfold phase_threw, nothing_recorded in *; simpl.
      repeat split; try tauto; eauto.
      * rewrite settle_length. exact Hlen.
      * apply decoded_in_order_error; assumption.
      * destruct Hwhy as [Hrej|[Hall _]].
        -- left. apply rejected_survives; assumption.
        -- destruct (all_fulfilled_settled _ _ Hall Hi) as [v Hv]. discriminate.
    + destruct Hph as (_ & _ & _ & _ & _ & _ & _ & Hall & _).
      destruct (all_fulfilled_settled _ _ Hall Hi) as [v Hv]. discriminate.
  - (* an animation frame *)
    destruct (rafPending s) eqn:Hraf; try discriminate.
    injection Hstep as <-.
    destruct Hph as [Hph|[Hph|[Hph|Hph]]].
    + destruct Hph as (_ & _ & _ & _ & _ & _ & _ & _ & _ & _ & Hf). congruence.
    + destruct Hph as (_ & _ & _ & _ & _ & _ & _ & _ & _ & _ & _ & _ & _ & Hf).
      congruence.
    + destruct Hph as (_ & _ & _ & _ & _ & _ & _ & _ & _ & _ & Hf). congruence.
    + destruct Hph as (Hctx & Hcap & Hmime & Hx & [r Hr] & Hlen & Hdec & Hall & Ha & Hst).
      destruct (draw_keeps s now) as (_ & Kx & Kl & Ki & Ka & Ks & _ & _ & Kr).
      right; right; right. unfold phase_recording.
      rewrite Kx, Kl, Ki, Ka, Ks. repeat split; eauto.
  - (* the recorder delivers data *)
    destruct (recorder s) as [r|] eqn:Hr; try discriminate.
    injection Hstep as <-.
    destruct Hph as [Hph|[Hph|[Hph|Hph]]].
    + destruct Hph as (_ & _ & _ & _ & _ & _ & Hf & _). congruence.
    + destruct Hph as (_ & _ & _ & _ & _ & _ & _ & _ & _ & Hf & _). congruence.
    + destruct Hph as (_ & _ & _ & _ & _ & _ & Hf & _). congruence.
    + right; right; right. unfold phase_recording in *; simpl. exact Hph.
  - (* the recorder has stopped *)
    destruct (recorder s) as [r|] eqn:Hr; try discriminate.
    injection Hstep as <-.
    destruct Hph as [Hph|[Hph|[Hph|Hph]]].
    + destruct Hph as (_ & _ & _ & _ & _ & _ & Hf & _). congruence.
    + destruct Hph as (_ & _ & _ & _ & _ & _ & _ & _ & _ & Hf & _). congruence.
    + destruct Hph as (_ & _ & _ & _ & _ & _ & Hf & _). congruence.
    + right; right; right. unfold phase_recording in *; simpl.
      repeat split; try tauto. eauto.
  - (* the recorder reports an error *)
    destruct (recorder s) as [r|] eqn:Hr; try discriminate.
    injection Hstep as <-.
    destruct Hph as [Hph|[Hph|[Hph|Hph]]].
    + destruct Hph as (_ & _ & _ & _ & _ & _ & Hf & _). congruence.
    + destruct Hph as (_ & _ & _ & _ & _ & _ & _ & _ & _ & Hf & _). congruence.
    + destruct Hph as (_ & _ & _ & _ & _ & _ & Hf & _). congruence.
    + right; right; right. unfold phase_recording in *; simpl. exact Hph.
Qed.

(** Every state of a run is in one of the four phases. *)
Lemma run_phase (events : list Event) (s : State) :
  run events = Some s -> phase s.
Proof.
  revert events s. apply (run_ind (fun _ s => phase s)).
  - apply phase_init.
  - intros events s e s' _ Hph Hstep. eapply step_phase; eassumption.
Qed.

End Runs.

(* ================================================================= *)
(** ** What one event changes *)

Section Steps.

Variable host : Host.
Variable images : list GeneratedImage.
Variable audioBuffer : AudioBuffer.

Local Abbreviation step := (step host images audioBuffer).
Local Abbreviation run_from := (run_from host images audioBuffer).
Local Abbreviation run := (run host images audioBuffer).
Local Abbreviation draw := (draw images audioBuffer).
Local Abbreviation phase := (phase host images).

Lemma resume_keeps (s : State) (elements : list HTMLImageElement) :
  promise (resume host s elements) = promise s
  /\ loads (resume host s elements) = loads s
  /\ chunks (resume host s elements) = chunks s
  /\ constructed (resume host s elements) = constructed s
  /\ canvas (resume host s elements) = canvas s.
Proof.
  unfold resume.
  destruct (captureStream_available host); simpl; auto.
  destruct (recorder_mimeType_supported host); simpl; auto.
Qed.

Lemma emitted_app (xs ys : list Event) :
  emitted (xs ++ ys) = emitted xs ++ emitted ys.
Proof.
  induction xs as [|x xs IH]; simpl; [reflexivity|].
  destruct x; simpl; rewrite ?IH; reflexivity.
Qed.

(** The promise changes at a stop event (resolved with the blob of the
    chunks) and at an error event of the recorder (rejected), never
    elsewhere. *)
Lemma step_promise (s s' : State) (e : Event) :
  step s e = Some s' ->
  match e with
  | Stop => promise s' = resolve (promise s) (new_Blob (chunks s) "video/webm")
  | RecorderError err => promise s' = reject (promise s) (RecorderErrorEvent err)
  | _ => promise s' = promise s
  end.
Proof.
  destruct e as [i w h|i|now|data| |err]; simpl; intro H.
  - destruct (nth_error (loads s) i) as [[|el|r]|]; try discriminate.
    destruct (nth_error images i) as [img|]; try discriminate.
    destruct (executor s); simpl in H;
      try (injection H as <-; reflexivity).
    destruct (all_fulfilled _); injection H as <-; [|reflexivity].
    destruct (resume_keeps (set_loads s (settle i (Fulfilled (mkElement (dataURL img) w h)) (loads s))) l)
      as (K & _). exact K.
  - destruct (nth_error (loads s) i) as [[|el|r]|]; try discriminate.
    destruct (executor s); simpl in H; injection H as <-; reflexivity.
  - destruct (rafPending s); try discriminate. injection H as <-.
    apply draw_keeps.
  - destruct (recorder s); try discriminate. injection H as <-. reflexivity.
  - destruct (recorder s); try discriminate. injection H as <-. reflexivity.
  - destruct (recorder s); try discriminate. injection H as <-. reflexivity.
Qed.

(** A settled promise stays as it is. *)
Lemma step_settled (s s' : State) (e : Event) :
  step s e = Some s' -> promise s <> Pending -> promise s' = promise s.
Proof.
  intros H Hp. pose proof (step_promise _ _ H) as K.
  destruct e; auto; rewrite K.
  - apply resolve_settled; exact Hp.
  - apply reject_settled; exact Hp.
Qed.

Lemma run_from_settled (s s' : State) (events : list Event) :
  run_from s events = Some s' -> promise s <> Pending -> promise s' = promise s.
Proof.
  revert s. induction events as [|e events IH]; intros s H Hp; simpl in H.
  - injection H as <-. reflexivity.
  - destruct (step s e) as [s1|] eqn:E; [|discriminate].
    pose proof (step_settled _ _ E Hp) as K.
    rewrite <- K. apply IH; [exact H | congruence].
Qed.

(** The chunk buffer grows by what the recorder delivers and is never
    emptied. *)
Lemma step_chunks (s s' : State) (e : Event) :
  step s e = Some s' -> chunks s' = chunks s ++ emitted [e].
Proof.
  destruct e as [i w h|i|now|data| |err]; simpl; intro H.
  - destruct (nth_error (loads s) i) as [[|el|r]|]; try discriminate.
    destruct (nth_error images i) as [img|]; try discriminate.
    rewrite app_nil_r.
    destruct (executor s); simpl in H;
      try (injection H as <-; reflexivity).
    destruct (all_fulfilled _); injection H as <-; [|reflexivity].
    destruct (resume_keeps (set_loads s (settle i (Fulfilled (mkElement (dataURL img) w h)) (loads s))) l)
      as (_ & _ & K & _). exact K.
  - destruct (nth_error (loads s) i) as [[|el|r]|]; try discriminate.
    rewrite app_nil_r.
    destruct (executor s); simpl in H; injection H as <-; reflexivity.
  - destruct (rafPending s); try discriminate. injection H as <-.
    rewrite app_nil_r. apply draw_keeps.
  - destruct (recorder s); try discriminate. injection H as <-. reflexivity.
  - destruct (recorder s); try discriminate. injection H as <-.
    rewrite app_nil_r. reflexivity.
  - destruct (recorder s); try discriminate. injection H as <-.
    rewrite app_nil_r. reflexivity.
Qed.

(** A blob is built by the stop handler and by nothing else. *)
Lemma step_constructed (s s' : State) (e : Event) :
  step s e = Some s' ->
  match e with
  | Stop => constructed s' = constructed s ++ [new_Blob (chunks s) "video/webm"]
  | _ => constructed s' = constructed s
  end.
Proof.
  destruct e as [i w h|i|now|data| |err]; simpl; intro H.
  - destruct (nth_error (loads s) i) as [[|el|r]|]; try discriminate.
    destruct (nth_error images i) as [img|]; try discriminate.
    destruct (executor s); simpl in H;
      try (injection H as <-; reflexivity).
    destruct (all_fulfilled _); injection H as <-; [|reflexivity].
    destruct (resume_keeps (set_loads s (settle i (Fulfilled (mkElement (dataURL img) w h)) (loads s))) l)
      as (_ & _ & _ & K & _). exact K.
  - destruct (nth_error (loads s) i) as [[|el|r]|]; try discriminate.
    destruct (executor s); simpl in H; injection H as <-; reflexivity.
  - destruct (rafPending s); try discriminate. injection H as <-.
    apply draw_keeps.
  - destruct (recorder s); try discriminate. injection H as <-. reflexivity.
  - destruct (recorder s); try discriminate. injection H as <-. reflexivity.
  - destruct (recorder s); try discriminate. injection H as <-. reflexivity.
Qed.

Lemma run_chunks (events : list Event) (s : State) :
  run events = Some s -> chunks s = emitted events.
Proof.
  revert events s.
  apply (@run_ind host images audioBuffer
           (fun events s => chunks s = emitted events)).
  - unfold assembleVideo.
    destruct (context2d_available host); simpl; [|reflexivity].
    destruct images; [|reflexivity]. apply resume_keeps.
  - intros events s e s' _ IH Hstep.
    rewrite (step_chunks _ _ Hstep), IH, emitted_app. reflexivity.
Qed.

End Steps.

(* ================================================================= *)
(** ** The result of the call *)

Section Result.

Variable host : Host.
Variable images : list GeneratedImage.
Variable audioBuffer : AudioBuffer.

Local Abbreviation step := (step host images audioBuffer).
Local Abbreviation run := (run host images audioBuffer).

(** Along a run: once a stop event has come the promise is settled, and a
    fulfilled promise holds the blob of the chunks emitted before the first
    stop event. *)
Lemma run_fulfilled (events : list Event) (s : State) :
  run events = Some s ->
  (In Stop events -> promise s <> Pending)
  /\ (forall b, promise s = Fulfilled b ->
        exists pre post,
          events = pre ++ Stop :: post /\ ~ In Stop pre
          /\ b = new_Blob (emitted pre) "video/webm").
Proof.
  revert events s.
  apply (@run_ind host images audioBuffer (fun events s =>
    (In Stop events -> promise s <> Pending)
    /\ (forall b, promise s = Fulfilled b ->
          exists pre post,
            events = pre ++ Stop :: post /\ ~ In Stop pre
            /\ b = new_Blob (emitted pre) "video/webm"))).
  - split.
    + intros [].
    + intros b Hb. exfalso. revert Hb. unfold assembleVideo.
      destruct (context2d_available host); simpl; [|discriminate].
      destruct images; simpl; [|discriminate].
      rewrite (proj1 (resume_keeps host _ _)). discriminate.
  - intros events s e s' Hrun [IHstop IHb] Hstep.
    pose proof (step_promise _ _ _ _ _ Hstep) as Hp.
    pose proof (run_chunks _ _ _ _ Hrun) as Hc.
    destruct (promise s) as [|b0|r0] eqn:Hs.
    + (* still pending before the event *)
      split.
      * intro Hin. apply in_app_or in Hin. destruct Hin as [Hin|[He|[]]].
        -- exfalso. apply (IHstop Hin). reflexivity.
        -- subst e. rewrite Hp. simpl. discriminate.
      * intros b Hb. destruct e; rewrite Hp in Hb; try discriminate.
        simpl in Hb. injection Hb as <-.
        exists events, []. split; [reflexivity|]. split.
        -- intro Hin. apply (IHstop Hin). reflexivity.
        -- rewrite Hc. reflexivity.
    + (* fulfilled before the event *)
      assert (K : promise s' = Fulfilled b0).
      { rewrite <- Hs. apply (step_settled _ _ _ _ _ Hstep). congruence. }
      split; [rewrite K; discriminate|].
      intros b Hb. rewrite K in Hb. injection Hb as <-.
      destruct (IHb b0 eq_refl) as (pre & post & -> & Hpre & Hblob).
      exists pre, (post ++ [e]). rewrite <- app_assoc. auto.
    + (* rejected before the event *)
      assert (K : promise s' = Rejected r0).
      { rewrite <- Hs. apply (step_settled _ _ _ _ _ Hstep). congruence. }
      split; [rewrite K; discriminate|].
      intros b Hb. rewrite K in Hb. discriminate.
Qed.

End Result.

(** C9.  When the promise of the caller is fulfilled, the recorder has
    signalled that it stopped, and the value is one blob: the bytes of all
    the chunks emitted before that first stop event, end to end in emission
    order, with the mime type of the container, [video/webm]. *)
Theorem resolved_blob_concatenates_chunks
    (host : Host) (images : list GeneratedImage) (audioBuffer : AudioBuffer)
    (events : list Event) (s : State) (b : Blob) :
  run host images audioBuffer events = Some s ->
  promise s = Fulfilled b ->
  exists pre post : list Event,
    events = pre ++ Stop :: post
    /\ ~ In Stop pre
    /\ bytes b = concat (map bytes (emitted pre))
    /\ type b = "video/webm"%string.
Proof.
  intros Hrun Hb.
  destruct (proj2 (@run_fulfilled host images audioBuffer events s Hrun) b Hb)
    as (pre & post & E & Hpre & ->).
  exists pre, post. auto.
Qed.

Lemma resolved_blob_concatenates_chunks_witness :
  exists s b,
    run capable_host [png] narration
        [ImgLoad 0 1024 768; DataAvailable chunk1; AnimationFrame 14000;
         DataAvailable chunk2; Stop] = Some s
    /\ promise s = Fulfilled b
    /\ exists pre post : list Event,
         [ImgLoad 0 1024 768; DataAvailable chunk1; AnimationFrame 14000;
          DataAvailable chunk2; Stop] = pre ++ Stop :: post
         /\ ~ In Stop pre
         /\ bytes b = concat (map bytes (emitted pre))
         /\ type b = "video/webm"%string.
Proof.
  eexists. eexists.
  split; [vm_compute; reflexivity|].
  split; [vm_compute; reflexivity|].
  eapply (@resolved_blob_concatenates_chunks capable_host [png] narration);
    vm_compute; reflexivity.
Defined.

(* ================================================================= *)
(** ** Failures before the recording starts *)

Section Failures.

Variable host : Host.
Variable images : list GeneratedImage.
Variable audioBuffer : AudioBuffer.

Local Abbreviation step := (step host images audioBuffer).
Local Abbreviation run_from := (run_from host images audioBuffer).
Local Abbreviation run := (run host images audioBuffer).
Local Abbreviation phase := (phase host images).

(** An executor that has thrown is never resumed. *)
Lemma step_threw (s s' : State) (e : Event) (r : Reason) :
  executor s = Threw r -> step s e = Some s' -> executor s' = Threw r.
Proof.
  intros Hx H. destruct e as [i w h|i|now|data| |err]; simpl in H.
  - destruct (nth_error (loads s) i) as [[|el|r0]|]; try discriminate.
    destruct (nth_error images i) as [img|]; try discriminate.
    simpl in H. rewrite Hx in H. injection H as <-. exact Hx.
  - destruct (nth_error (loads s) i) as [[|el|r0]|]; try discriminate.
    simpl in H. rewrite Hx in H. injection H as <-. exact Hx.
  - destruct (rafPending s); try discriminate. injection H as <-.
    destruct (draw_keeps images audioBuffer s now) as (_ & K & _).
    rewrite K. exact Hx.
  - destruct (recorder s); try discriminate. injection H as <-. exact Hx.
  - destruct (recorder s); try discriminate. injection H as <-. exact Hx.
  - destruct (recorder s); try discriminate. injection H as <-. exact Hx.
Qed.

Lemma run_from_threw (s s' : State) (events : list Event) (r : Reason) :
  executor s = Threw r -> run_from s events = Some s' -> executor s' = Threw r.
Proof.
  revert s. induction events as [|e events IH]; intros s Hx H; simpl in H.
  - injection H as <-. exact Hx.
  - destruct (step s e) as [s1|] eqn:E; [|discriminate].
    apply (IH s1); [eapply step_threw; eassumption | exact H].
Qed.

Lemma phase_of_threw (s : State) (r : Reason) :
  phase s -> executor s = Threw r -> phase_threw host images s.
Proof.
  intros [Hph|[Hph|[Hph|Hph]]] Hx.
  - destruct Hph as (_ & _ & K & _). congruence.
  - destruct Hph as (_ & _ & K & _). congruence.
  - exact Hph.
  - destruct Hph as (_ & _ & _ & K & _). congruence.
Qed.

(** The error event of an image ends the executor with an exception. *)
Lemma image_error_throws (s s' : State) (i : nat) :
  phase s -> step s (ImgError i) = Some s' -> exists r, executor s' = Threw r.
Proof.
  intros Hph H. simpl in H.
  destruct (nth_error (loads s) i) as [[|el|r]|] eqn:Hi; try discriminate.
  simpl in H.
  destruct Hph as [Hph|[Hph|[Hph|Hph]]].
  - destruct Hph as (_ & _ & _ & Hl & _). rewrite Hl in Hi.
    destruct i; discriminate.
  - destruct Hph as (_ & _ & Hx & _). rewrite Hx in H.
    injection H as <-. eexists. reflexivity.
  - destruct Hph as (_ & _ & [r Hx] & _). rewrite Hx in H.
    injection H as <-. exists r. exact Hx.
  - destruct Hph as (_ & _ & _ & _ & _ & _ & _ & Hall & _).
    destruct (all_fulfilled_settled _ _ Hall Hi) as [v Hv]. discriminate.
Qed.

(** Decoded elements come from load events: the element at position [i]
    has the size that the load event of image [i] delivered. *)
Lemma run_loads (events : list Event) (s : State) :
  run events = Some s ->
  forall i el, nth_error (loads s) i = Some (Fulfilled el) ->
    In (ImgLoad i (width el) (height el)) events.
Proof.
  revert events s.
  apply (@run_ind host images audioBuffer (fun events s =>
    forall i el, nth_error (loads s) i = Some (Fulfilled el) ->
      In (ImgLoad i (width el) (height el)) events)).
  - intros i el. unfold assembleVideo.
    destruct (context2d_available host); simpl.
    + destruct images as [|img rest]; simpl.
      * rewrite (proj1 (proj2 (resume_keeps host _ _))). simpl.
        destruct i; discriminate.
      * intro H. destruct i; simpl in H; [discriminate|].
        apply nth_error_all_pending in H. discriminate.
    + destruct i; discriminate.
  - intros events s e s' _ IH H j el Hj. apply in_or_app.
    destruct e as [i w h|i|now|data| |err]; simpl in H.
    + destruct (nth_error (loads s) i) as [[|el0|r]|] eqn:Hi; try discriminate.
      destruct (nth_error images i) as [img|]; try discriminate.
      assert (K : loads s' = settle i (Fulfilled (mkElement (dataURL img) w h)) (loads s)).
      { simpl in H. destruct (executor s); try (injection H as <-; reflexivity).
        destruct (all_fulfilled _); injection H as <-; [|reflexivity].
        rewrite (proj1 (proj2 (resume_keeps host _ _))). reflexivity. }
      rewrite K in Hj. destruct (Nat.eq_dec i j) as [<-|Hne].
      * rewrite (nth_error_settle_same _ _ _ Hi) in Hj. injection Hj as <-.
        right. left. reflexivity.
      * rewrite (nth_error_settle_other _ _ Hne) in Hj. left. apply (IH j el Hj).
    + destruct (nth_error (loads s) i) as [[|el0|r]|] eqn:Hi; try discriminate.
      assert (K : loads s' = settle i (Rejected (ImageErrorEvent i)) (loads s)).
      { simpl in H. destruct (executor s); injection H as <-; reflexivity. }
      rewrite K in Hj. destruct (Nat.eq_dec i j) as [<-|Hne].
      * rewrite (nth_error_settle_same _ _ _ Hi) in Hj. discriminate.
      * rewrite (nth_error_settle_other _ _ Hne) in Hj. left. apply (IH j el Hj).
    + destruct (rafPending s); try discriminate. injection H as <-.
      rewrite (proj1 (proj2 (proj2 (draw_keeps images audioBuffer s now)))) in Hj.
      left. apply (IH j el Hj).
    + destruct (recorder s); try discriminate. injection H as <-.
      left. apply (IH j el Hj).
    + destruct (recorder s); try discriminate. injection H as <-.
      left. apply (IH j el Hj).
    + destruct (recorder s); try discriminate. injection H as <-.
      left. apply (IH j el Hj).
Qed.

End Failures.

(** C4, as the code has it.  Once an image has failed to decode, the
    executor has ended with an exception that nobody receives: the promise
    of the caller is not rejected, it stays pending whatever follows.  No
    recorder exists, no chunk was accumulated, no blob was built and no
    frame is requested. *)
Theorem decode_failure_leaves_promise_pending
    (host : Host) (images : list GeneratedImage) (audioBuffer : AudioBuffer)
    (pre post : list Event) (i : nat) (s : State) :
  run host images audioBuffer (pre ++ ImgError i :: post) = Some s ->
  promise s = Pending
  /\ (exists r, executor s = Threw r)
  /\ recorder s = None /\ chunks s = [] /\ constructed s = []
  /\ rafPending s = false.
Proof.
  intro H.
  pose proof (@run_phase host images audioBuffer _ _ H) as Hph.
  destruct (@run_prefix host images audioBuffer _ _ _ H) as (s0 & H0 & Hrest).
  pose proof (@run_phase host images audioBuffer _ _ H0) as Hph0.
  cbn [run_from] in Hrest.
  destruct (step host images audioBuffer s0 (ImgError i)) as [s1|] eqn:E;
    [|discriminate].
  destruct (@image_error_throws host images audioBuffer _ _ _ Hph0 E) as [r Hr].
  pose proof (@run_from_threw host images audioBuffer _ _ _ _ Hr Hrest) as Hx.
  destruct (@phase_of_threw host images s r Hph Hx)
    as (_ & Hp & _ & _ & _ & _ & Hrec & Hch & Hb & _ & Hraf).
  repeat split; eauto.
Qed.

(** The second scenario of the specification: image 2 of 3 fails. *)
Lemma decode_failure_leaves_promise_pending_witness :
  exists s,
    run capable_host [png; png; png] narration
        ([ImgLoad 0 1024 768] ++ ImgError 1 :: [ImgLoad 2 1024 768]) = Some s
    /\ promise s = Pending.
Proof.
  eexists. split; [vm_compute; reflexivity|].
  eapply (@decode_failure_leaves_promise_pending capable_host [png; png; png]
            narration [ImgLoad 0 1024 768] [ImgLoad 2 1024 768] 1%nat).
  vm_compute. reflexivity.
Defined.

(** C6, as the code has it.  Without a 2d context the promise is rejected
    with the error "Canvas context not available".  With a context but
    without [canvas.captureStream], or with a recorder that does not support
    the mime type, the promise is never rejected: it is pending in every
    state of every run, and once all the images have decoded the executor
    has ended with an exception. *)
Theorem unsupported_host_leaves_promise_pending
    (host : Host) (images : list GeneratedImage) (audioBuffer : AudioBuffer)
    (events : list Event) (s : State) :
  run host images audioBuffer events = Some s ->
  (context2d_available host = false ->
     promise s = Rejected (Error "Canvas context not available"))
  /\ (context2d_available host = true ->
      captureStream_available host = false
      \/ recorder_mimeType_supported host = false ->
      promise s = Pending /\ recorder s = None
      /\ (all_fulfilled (loads s) <> None -> exists r, executor s = Threw r)).
Proof.
  intro H.
  pose proof (@run_phase host images audioBuffer _ _ H) as Hph.
  split.
  - intro Hctx. destruct Hph as [Hph|[Hph|[Hph|Hph]]].
    + apply Hph.
    + destruct Hph as (K & _). congruence.
    + destruct Hph as (K & _). congruence.
    + destruct Hph as (K & _). congruence.
  - intros Hctx Hcaps. destruct Hph as [Hph|[Hph|[Hph|Hph]]].
    + destruct Hph as (K & _). congruence.
    + destruct Hph as (_ & Hp & _ & _ & _ & Hall & _ & _ & _ & Hr & _).
      repeat split; auto. intro K. contradiction.
    + destruct Hph as (_ & Hp & Hx & _ & _ & _ & Hr & _).
      repeat split; auto.
    + destruct Hph as (_ & Hcap & Hmime & _).
      destruct Hcaps; congruence.
Qed.

Lemma unsupported_host_leaves_promise_pending_witness :
  exists s,
    run host_without_codec [png] narration [ImgLoad 0 1024 768] = Some s
    /\ promise s = Pending
    /\ executor s = Threw NotSupportedError.
Proof.
  eexists. split; [vm_compute; reflexivity|].
  split; [|vm_compute; reflexivity].
  eapply (proj2 (@unsupported_host_leaves_promise_pending host_without_codec
            [png] narration [ImgLoad 0 1024 768] _ _)).
  - reflexivity.
  - right. reflexivity.
  Unshelve. vm_compute. reflexivity.
Defined.

(* ================================================================= *)
(** ** Frame source *)

(** In every state of a run: the recorder, a frame request or a drawn
    canvas exist only when every image has been decoded; and when every
    image has been decoded the decoded frames are as many as the images and
    stand in the order of the images, the frame at position [i] being the
    element decoded from image [i] by that image's load event. *)
Lemma decoded_frames_in_order
    (host : Host) (images : list GeneratedImage) (audioBuffer : AudioBuffer)
    (events : list Event) (s : State) :
  context2d_available host = true ->
  run host images audioBuffer events = Some s ->
  (recorder s <> None \/ rafPending s = true \/ canvas s <> [] ->
     all_fulfilled (loads s) = Some (imageElements s))
  /\ (forall elements : list HTMLImageElement,
        all_fulfilled (loads s) = Some elements ->
        imageElements s = elements
        /\ length elements = length images
        /\ forall (i : nat) (img : GeneratedImage) (el : HTMLImageElement),
             nth_error images i = Some img ->
             nth_error elements i = Some el ->
             src el = dataURL img
             /\ In (ImgLoad i (width el) (height el)) events).
Proof.
  intros Hctx H.
  pose proof (@run_phase host images audioBuffer _ _ H) as Hph.
  pose proof (@run_loads host images audioBuffer _ _ H) as Hfrom.
  assert (Hsome : forall elements, all_fulfilled (loads s) = Some elements ->
            length (loads s) = length images ->
            decoded_in_order images (loads s) ->
            length elements = length images
            /\ forall i img el,
                 nth_error images i = Some img ->
                 nth_error elements i = Some el ->
                 src el = dataURL img
                 /\ In (ImgLoad i (width el) (height el)) events).
  { intros elements Hall Hlen Hdec. split.
    - rewrite (all_fulfilled_length _ Hall). exact Hlen.
    - intros i img el Himg Hel.
      pose proof (all_fulfilled_nth _ Hall i) as Hi.
      rewrite Hel in Hi. simpl in Hi. split.
      + destruct (Hdec i el Hi) as (img' & Himg' & Hsrc). congruence.
      + apply (Hfrom i el Hi). }
  destruct Hph as [Hph|[Hph|[Hph|Hph]]].
  - destruct Hph as (K & _). congruence.
  - destruct Hph as (_ & _ & _ & Hlen & Hdec & Hall & _ & _ & _ & Hr & _ & _ & Hcv & Hraf).
    split.
    + intros [K|[K|K]]; congruence.
    + intros elements K. congruence.
  - destruct Hph as (_ & _ & _ & Hlen & Hdec & Hwhy & Hr & _ & _ & Hcv & Hraf).
    split.
    + intros [K|[K|K]]; congruence.
    + intros elements Hall. destruct Hwhy as [(j & r & Hj)|[Hall' _]].
      * destruct (all_fulfilled_settled _ _ Hall Hj) as [v Hv]. discriminate.
      * split; [congruence|]. apply (Hsome elements Hall Hlen Hdec).
  - destruct Hph as (_ & _ & _ & _ & _ & Hlen & Hdec & Hall' & _).
    split.
    + intros _. exact Hall'.
    + intros elements Hall.
      split; [congruence|]. apply (Hsome elements Hall Hlen Hdec).
Qed.

(* ================================================================= *)
(** ** Errors of the recorder *)

(** No blob is built before the first stop event. *)
Lemma run_constructed
    (host : Host) (images : list GeneratedImage) (audioBuffer : AudioBuffer)
    (events : list Event) (s : State) :
  run host images audioBuffer events = Some s ->
  ~ In Stop events -> constructed s = [].
Proof.
  revert events s.
  apply (@run_ind host images audioBuffer (fun events s =>
    ~ In Stop events -> constructed s = [])).
  - intros _. unfold assembleVideo.
    destruct (context2d_available host); simpl; [|reflexivity].
    destruct images; [|reflexivity].
    apply (resume_keeps host).
  - intros events s e s' _ IH Hstep Hno.
    pose proof (step_constructed _ _ _ _ _ Hstep) as K.
    assert (Hno' : ~ In Stop events).
    { intro Hin. apply Hno. apply in_or_app. left. exact Hin. }
    destruct e; try (rewrite K; apply IH; exact Hno').
    exfalso. apply Hno. apply in_or_app. right. left. reflexivity.
Qed.

(** The third scenario as worded fails: after the error the draw loop still
    stops the recorder at the end of the audio, the stop handler runs and
    concatenates the chunks into a blob. *)
Lemma error_does_not_discard_chunks :
  ~ error_discards_chunks capable_host [png] narration.
Proof.
  intro H.
  assert (E0 : exists s0,
             run capable_host [png] narration
                 [ImgLoad 0 1024 768; DataAvailable chunk1] = Some s0
             /\ promise s0 = Pending).
  { eexists. split; vm_compute; reflexivity. }
  assert (E1 : exists s,
             run capable_host [png] narration
                 ([ImgLoad 0 1024 768; DataAvailable chunk1]
                    ++ RecorderError "encoder failed"
                    :: [AnimationFrame 14000; DataAvailable chunk2; Stop])
             = Some s
             /\ constructed s = [new_Blob [chunk1; chunk2] "video/webm"]).
  { eexists. split; vm_compute; reflexivity. }
  destruct E0 as (s0 & R0 & P0). destruct E1 as (s & R & B).
  destruct (H _ _ _ _ _ R0 P0 R) as [_ K].
  rewrite K in B. discriminate.
Qed.

(** C5, amended.  An error of the recorder that comes while the result is
    pending rejects it with the error event, and it stays rejected whatever
    follows, so no blob is returned to the caller.  The error handler builds
    no blob and leaves the chunk buffer as it is; a stop event after the
    error still concatenates the chunks into a blob, which reaches nobody
    because the promise is already settled. *)
Theorem encoder_error_rejects
    (host : Host) (images : list GeneratedImage) (audioBuffer : AudioBuffer)
    (pre post : list Event) (err : string) (s0 s : State) :
  run host images audioBuffer pre = Some s0 ->
  promise s0 = Pending ->
  run host images audioBuffer (pre ++ RecorderError err :: post) = Some s ->
  promise s = Rejected (RecorderErrorEvent err)
  /\ exists s1 s2 : State,
       step host images audioBuffer s0 (RecorderError err) = Some s1
       /\ chunks s1 = chunks s0
       /\ constructed s1 = []
       /\ step host images audioBuffer s1 Stop = Some s2
       /\ constructed s2 = [new_Blob (chunks s0) "video/webm"]
       /\ promise s2 = Rejected (RecorderErrorEvent err).
Proof.
  intros H0 Hp H.
  destruct (@run_prefix host images audioBuffer _ _ _ H) as (s0' & H0' & Hrest).
  rewrite H0 in H0'. injection H0' as <-.
  cbn [run_from] in Hrest.
  destruct (step host images audioBuffer s0 (RecorderError err)) as [s1|] eqn:E;
    [|discriminate].
  assert (P1 : promise s1 = Rejected (RecorderErrorEvent err)).
  { rewrite (step_promise _ _ _ _ _ E), Hp. reflexivity. }
  assert (B0 : constructed s0 = []).
  { apply (run_constructed _ _ _ _ H0). intro Hin.
    apply (proj1 (@run_fulfilled host images audioBuffer _ _ H0) Hin Hp). }
  split.
  - rewrite <- P1. apply (run_from_settled _ _ _ _ _ Hrest). congruence.
  - simpl in E. destruct (recorder s0) as [r|] eqn:Hr; [|discriminate].
    injection E as <-.
    exists (onerror s0 err), (onstop (onerror s0 err)).
    simpl. rewrite Hr, Hp, B0. simpl. repeat split; reflexivity.
Qed.

Lemma encoder_error_rejects_witness :
  exists s,
    run capable_host [png] narration
        ([ImgLoad 0 1024 768; DataAvailable chunk1]
           ++ RecorderError "encoder failed"
           :: [AnimationFrame 14000; DataAvailable chunk2; Stop]) = Some s
    /\ promise s = Rejected (RecorderErrorEvent "encoder failed").
Proof.
  eexists. split; [vm_compute; reflexivity|].
  eapply (@encoder_error_rejects capable_host [png] narration
            [ImgLoad 0 1024 768; DataAvailable chunk1]
            [AnimationFrame 14000; DataAvailable chunk2; Stop]
            "encoder failed");
    vm_compute; reflexivity.
Defined.

(* ================================================================= *)
(** ** The render loop *)

Lemma elapsedTime_Fin (start now : Q) :
  elapsedTime (Fin start) (Fin now) = Fin ((now - start) / 1000).
Proof. reflexivity. Qed.

Lemma index_of_Z {A : Type} (arr : list A) (k : number) (i : Z) :
  (k == of_Z i)%js -> (0 <= i)%Z ->
  index arr k = nth_error arr (Z.to_nat i).
Proof.
  destruct k as [q| | |]; simpl; try contradiction.
  intros Hq Hi.
  assert (F : Qfloor q = i) by (rewrite Hq; apply Qfloor_Z).
  rewrite F.
  assert (E : Qeq_bool q (inject_Z i) = true) by (apply Qeq_bool_iff; exact Hq).
  assert (L : Qle_bool 0 q = true).
  { apply Qle_bool_iff. rewrite Hq. change 0 with (inject_Z 0).
    rewrite <- Zle_Qle. exact Hi. }
  rewrite E, L. reflexivity.
Qed.

Section Rendering.

Variable host : Host.
Variable images : list GeneratedImage.
Variable audioBuffer : AudioBuffer.

Local Abbreviation step := (step host images audioBuffer).
Local Abbreviation run_from := (run_from host images audioBuffer).
Local Abbreviation run := (run host images audioBuffer).
Local Abbreviation draw := (draw images audioBuffer).

(** At or after the end of the audio [draw] stops the recorder and returns. *)
Lemma draw_at_end (s : State) (now : Q) :
  duration audioBuffer <= (now - startTime s) / 1000 ->
  draw s now = recorder_stop (set_rafPending s false).
Proof.
  intro H. unfold draw. rewrite elapsedTime_Fin.
  unfold audioDuration. simpl geb.
  apply Qle_bool_iff in H. rewrite H. reflexivity.
Qed.

(** Before the end [draw] assigns the scene index, clears the canvas, and
    draws the image and requests the next frame if the lookup gave one. *)
Lemma draw_before_end (s : State) (now : Q) :
  (now - startTime s) / 1000 < duration audioBuffer ->
  let t := Fin ((now - startTime s) / 1000) in
  let sd := sceneDuration (Fin (duration audioBuffer)) (length images) in
  let scene := sceneIndex sd (length images) t in
  currentScene (draw s now) = scene
  /\ forall image, index (imageElements s) scene = Some image ->
       canvas (draw s now)
       = canvas s ++ [clear_black;
                      DrawImage image
                        (destRect canvas_width canvas_height
                                  (of_Z (width image)) (of_Z (height image))
                                  (scale (sceneProgress sd t)))]
       /\ rafPending (draw s now) = true.
Proof.
  intros H t sd scene. unfold draw. rewrite elapsedTime_Fin.
  unfold audioDuration. simpl geb.
  assert (F : Qle_bool (duration audioBuffer) ((now - startTime s) / 1000) = false).
  { destruct (Qle_bool _ _) eqn:E; [|reflexivity].
    apply Qle_bool_iff in E. lra. }
  rewrite F. simpl imageElements. fold t. fold sd. fold scene.
  split.
  - destruct (index (imageElements s) scene); reflexivity.
  - intros image Hi. rewrite Hi. simpl. rewrite <- app_assoc. auto.
Qed.



(** A frame is requested only while recording. *)
Lemma raf_recording (s : State) :
  phase host images s -> rafPending s = true -> phase_recording host images s.
Proof.
  intros [Hph|[Hph|[Hph|Hph]]] Hraf.
  - destruct Hph as (_ & _ & _ & _ & _ & _ & _ & _ & _ & _ & K). congruence.
  - destruct Hph as (_ & _ & _ & _ & _ & _ & _ & _ & _ & _ & _ & _ & _ & K).
    congruence.
  - destruct Hph as (_ & _ & _ & _ & _ & _ & _ & _ & _ & _ & K). congruence.
  - exact Hph.
Qed.

End Rendering.

Lemma index_negative {A : Type} (arr : list A) (k : number) :
  (k < Fin 0)%js -> index arr k = None.
Proof.
  destruct k as [q| | |]; simpl; try reflexivity.
  intro H. destruct (Qle_bool 0 q) eqn:E.
  - apply Qle_bool_iff in E. lra.
  - rewrite andb_false_r. reflexivity.
Qed.

(** What the hypothesis [0 <= t] of the render tick excludes: a frame whose
    timestamp is earlier than [startTime].  The scene index is then
    negative, [imageElements[currentScene]] is [undefined], the canvas is
    cleared and nothing is drawn, and no further frame is requested. *)
Lemma frame_before_start
    (images : list GeneratedImage) (audioBuffer : AudioBuffer)
    (s : State) (now : Q) :
  (1 <= length images)%nat ->
  0 < duration audioBuffer ->
  now < startTime s ->
  (currentScene (draw images audioBuffer s now) < Fin 0)%js
  /\ canvas (draw images audioBuffer s now) = canvas s ++ [clear_black]
  /\ rafPending (draw images audioBuffer s now) = false.
Proof.
  intros HN HD Hnow.
  assert (Ht : (now - startTime s) / 1000 < 0).
  { apply Qlt_shift_div_r; [reflexivity | lra]. }
  unfold draw. rewrite elapsedTime_Fin.
  remember ((now - startTime s) / 1000) as t eqn:Et. clear Et Hnow.
  assert (Hlt : t < duration audioBuffer) by lra.
  pose proof (sceneIndex_is_spec t HN HD) as Hspec.
  pose proof (spec_sceneDuration_pos HN HD) as Hsd.
  assert (Hneg : (spec_sceneIndex (duration audioBuffer) (length images) t < 0)%Z).
  { unfold spec_sceneIndex.
    assert (L : (Qfloor (t / spec_sceneDuration (duration audioBuffer) (length images)) < 0)%Z).
    { rewrite Zlt_Qlt.
      apply Qle_lt_trans with (t / spec_sceneDuration (duration audioBuffer) (length images));
        [apply Qfloor_le|].
      apply Qlt_shift_div_r; [exact Hsd|].
      change (inject_Z 0) with 0. lra. }
    lia. }
  assert (Hk : (sceneIndex (sceneDuration (Fin (duration audioBuffer)) (length images))
                  (length images) (Fin t) < Fin 0)%js).
  { apply lt_eqv_compat with
      (of_Z (spec_sceneIndex (duration audioBuffer) (length images) t)) (of_Z 0);
      [apply eqv_sym; exact Hspec | reflexivity |].
    simpl. rewrite <- Zlt_Qlt. exact Hneg. }
  assert (F : Qle_bool (duration audioBuffer) t = false).
  { destruct (Qle_bool _ _) eqn:E; [|reflexivity].
    apply Qle_bool_iff in E. lra. }
  unfold audioDuration. simpl geb. rewrite F. simpl imageElements.
  rewrite (index_negative _ _ Hk). simpl. auto.
Qed.



(* ================================================================= *)
(** ** No image at all *)

Lemma index_nil {A : Type} (k : number) : index (@nil A) k = None.
Proof.
  destruct k as [q| | |]; simpl; try reflexivity.
  destruct (_ && _); [|reflexivity].
  destruct (Z.to_nat (Qfloor q)); reflexivity.
Qed.

Lemma filter_snoc_false {A : Type} (f : A -> bool) (l : list A) (x : A) :
  f x = false -> filter f (l ++ [x]) = filter f l.
Proof.
  intro H. rewrite filter_app. simpl. rewrite H. apply app_nil_r.
Qed.

(** Without images no image is ever drawn. *)
Lemma run_without_images
    (host : Host) (audioBuffer : AudioBuffer) (events : list Event) (s : State) :
  run host [] audioBuffer events = Some s ->
  loads s = [] /\ imageElements s = [] /\ frames s = [].
Proof.
  revert events s.
  apply (@run_ind host [] audioBuffer (fun _ s =>
    loads s = [] /\ imageElements s = [] /\ frames s = [])).
  - unfold assembleVideo, resume, frames.
    destruct (context2d_available host); simpl; auto.
    destruct (captureStream_available host); simpl; auto.
    destruct (recorder_mimeType_supported host); simpl; auto.
  - intros events s e s' _ (Hl & Hi & Hf) H.
    destruct e as [i w h|i|now|data| |err]; simpl in H.
    + destruct (nth_error (loads s) i) as [[|el|r]|]; try discriminate.
      destruct i; discriminate.
    + rewrite Hl in H. destruct i; discriminate.
    + destruct (rafPending s); try discriminate. injection H as <-.
      destruct (draw_keeps [] audioBuffer s now)
        as (_ & _ & Kl & Ki & _).
      rewrite Kl, Ki. repeat split; auto.
      unfold frames, draw, recorder_stop.
      destruct (geb _ _); simpl.
      * destruct (recorder s); exact Hf.
      * rewrite Hi, index_nil. simpl.
        rewrite filter_snoc_false by reflexivity. exact Hf.
    + destruct (recorder s); try discriminate. injection H as <-. auto.
    + destruct (recorder s); try discriminate. injection H as <-. auto.
    + destruct (recorder s); try discriminate. injection H as <-. auto.
Qed.

(** C10.  With no image and a positive audio duration the per-scene
    duration is [+Infinity], not a positive finite number, and the scene
    index is -1 at every elapsed time [t >= 0]: a key under which no array
    holds an element.  The call is not rejected for it: with a drawing
    context the promise is pending when the call returns, and on a capable
    host the recording starts and the first tick before the end of the
    audio clears the canvas, finds no image and requests no further frame.
    In no run is an image ever drawn. *)
Theorem no_image_no_frame
    (host : Host) (audioBuffer : AudioBuffer) (t : Q) :
  0 < duration audioBuffer -> 0 <= t ->
  let sd := sceneDuration (Fin (duration audioBuffer)) 0 in
  sd = PosInf
  /\ (sceneIndex sd 0 (Fin t) == Fin (-1))%js
  /\ (forall (A : Type) (arr : list A),
        index arr (sceneIndex sd 0 (Fin t)) = None)
  /\ (context2d_available host = true ->
      promise (assembleVideo host []) = Pending)
  /\ (context2d_available host = true ->
      captureStream_available host = true ->
      recorder_mimeType_supported host = true ->
      t < duration audioBuffer ->
      let s0 := assembleVideo host [] in
      let s1 := draw [] audioBuffer s0 (performance_now host + 1000 * t) in
      recorder s0 = Some Recording
      /\ step host [] audioBuffer s0
              (AnimationFrame (performance_now host + 1000 * t)) = Some s1
      /\ (currentScene s1 == Fin (-1))%js
      /\ canvas s1 = [clear_black]
      /\ rafPending s1 = false
      /\ promise s1 = Pending)
  /\ (forall (events : list Event) (s : State),
        run host [] audioBuffer events = Some s -> frames s = []).
Proof.
  intros HD Ht sd.
  assert (Hsd : sd = PosInf).
  { unfold sd, sceneDuration, of_nat, of_Z. simpl.
    rewrite (Qeq_bool_false (x := duration audioBuffer) (y := 0)) by lra.
    unfold Qltb.
    destruct (Qle_bool (duration audioBuffer) 0) eqn:E; [|reflexivity].
    apply Qle_bool_iff in E. lra. }
  assert (Hidx : forall u, sceneIndex sd 0 (Fin u) = Fin (0 + - (1))).
  { intro u. rewrite Hsd. reflexivity. }
  split; [exact Hsd|].
  split; [rewrite Hidx; reflexivity|].
  split; [intros A arr; rewrite Hidx; reflexivity|].
  split.
  { intro Hctx. unfold assembleVideo. rewrite Hctx. simpl.
    apply (resume_keeps host). }
  split.
  { intros Hctx Hcap Hmime HtD s0 s1.
    assert (E0 : s0 = mkState Pending Completed [] [] true (Some Recording) []
                              (performance_now host) true (Fin 0) [] []).
    { unfold s0, assembleVideo, resume. rewrite Hctx, Hcap, Hmime. reflexivity. }
    unfold s1. clearbody s0. subst s0. clear s1.
    assert (Hel : (performance_now host + 1000 * t - performance_now host) / 1000
                  == t) by field.
    assert (F : Qle_bool (duration audioBuffer)
                  ((performance_now host + 1000 * t - performance_now host) / 1000)
                = false).
    { destruct (Qle_bool _ _) eqn:E; [|reflexivity].
      apply Qle_bool_iff in E. lra. }
    assert (Hdraw : draw [] audioBuffer
                      (mkState Pending Completed [] [] true (Some Recording) []
                               (performance_now host) true (Fin 0) [] [])
                      (performance_now host + 1000 * t)
                    = mkState Pending Completed [] [] true (Some Recording) []
                              (performance_now host) false
                              (sceneIndex sd 0
                                 (Fin ((performance_now host + 1000 * t
                                        - performance_now host) / 1000)))
                              [clear_black] []).
    { unfold draw. rewrite elapsedTime_Fin. unfold audioDuration.
      simpl geb. simpl startTime. rewrite F. simpl imageElements.
      rewrite index_nil. reflexivity. }
    cbn [step rafPending]. rewrite Hdraw. cbn [recorder currentScene canvas rafPending promise].
    repeat split. rewrite Hidx. reflexivity. }
  intros events s H. apply (run_without_images _ _ _ H).
Qed.

Lemma no_image_no_frame_witness :
  0 < duration narration /\ 0 <= 3 /\
  (sceneIndex (sceneDuration (Fin (duration narration)) 0) 0 (Fin 3)
   == Fin (-1))%js.
Proof.
  assert (HD : 0 < duration narration) by reflexivity.
  assert (Ht : 0 <= 3) by discriminate.
  split; [exact HD|]. split; [exact Ht|].
  exact (proj1 (proj2 (@no_image_no_frame capable_host narration 3 HD Ht))).
Defined.

(* ================================================================= *)
(** ** Decoding in any order *)

Section AnyOrder.

Variable host : Host.
Variable images : list GeneratedImage.
Variable audioBuffer : AudioBuffer.
Variable size : nat -> Z * Z.

Hypothesis context_available : context2d_available host = true.

Local Abbreviation step := (step host images audioBuffer).
Local Abbreviation run := (run host images audioBuffer).
Local Abbreviation load := (fun i : nat => ImgLoad i (fst (size i)) (snd (size i))).
Local Abbreviation element :=
  (fun (i : nat) (img : GeneratedImage) =>
     mkElement (dataURL img) (fst (size i)) (snd (size i))).

Lemma run_extend (events : list Event) (e : Event) (s s' : State) :
  run events = Some s -> step s e = Some s' -> run (events ++ [e]) = Some s'.
Proof.
  intros H He. unfold run. rewrite run_from_app.
  unfold run in H. rewrite H. simpl. rewrite He. reflexivity.
Qed.

Lemma loads_init :
  loads (assembleVideo host images) = map (fun _ => Pending) images.
Proof.
  unfold assembleVideo. rewrite context_available. simpl.
  destruct images; [|reflexivity].
  apply (resume_keeps host).
Qed.

(** The load event of a pending image is always accepted and fulfils that
    image's promise. *)
Lemma step_load (s : State) (i : nat) (w h : Z) (img : GeneratedImage) :
  nth_error (loads s) i = Some Pending ->
  nth_error images i = Some img ->
  exists s', step s (ImgLoad i w h) = Some s'
             /\ loads s' = settle i (Fulfilled (mkElement (dataURL img) w h)) (loads s).
Proof.
  intros Hi Himg. simpl. rewrite Hi, Himg. simpl.
  destruct (executor s); try (eexists; split; reflexivity).
  destruct (all_fulfilled _) as [elements|]; eexists; split; try reflexivity.
  apply (resume_keeps host).
Qed.

(** After the load events of distinct images, in whatever order, exactly
    those images are decoded and the others are pending. *)
Lemma run_loads_any_order (order : list nat) :
  NoDup order ->
  (forall i, In i order -> (i < length images)%nat) ->
  exists s, run (map load order) = Some s
    /\ forall i img, nth_error images i = Some img ->
         (In i order -> nth_error (loads s) i = Some (Fulfilled (element i img)))
         /\ (~ In i order -> nth_error (loads s) i = Some Pending).
Proof.
  induction order as [|j order IH] using rev_ind; intros Hnd Hlt.
  - exists (assembleVideo host images). split; [reflexivity|].
    intros i img Himg. split; [intros []|]. intros _.
    rewrite loads_init, nth_error_map, Himg. reflexivity.
  - apply NoDup_remove in Hnd. rewrite app_nil_r in Hnd.
    destruct Hnd as [Hnd Hj].
    destruct IH as (s & Hrun & Hloads); [exact Hnd | |].
    { intros i Hi. apply Hlt. apply in_or_app. left. exact Hi. }
    assert (HjN : (j < length images)%nat).
    { apply Hlt. apply in_or_app. right. left. reflexivity. }
    destruct (nth_error images j) as [imgj|] eqn:Himgj;
      [|apply nth_error_None in Himgj; lia].
    destruct (step_load s j (fst (size j)) (snd (size j))
                (proj2 (Hloads j imgj Himgj) Hj) Himgj)
      as (s' & Hstep & Hl').
    exists s'. split.
    + rewrite map_app. simpl. eapply run_extend; eassumption.
    + intros i img Himg. rewrite Hl'.
      destruct (Nat.eq_dec j i) as [<-|Hne].
      * split.
        -- intros _.
           rewrite (nth_error_settle_same _ _ _ (proj2 (Hloads j imgj Himgj) Hj)).
           congruence.
        -- intro Hn. exfalso. apply Hn. apply in_or_app. right. left. reflexivity.
      * rewrite (nth_error_settle_other _ _ Hne).
        destruct (Hloads i img Himg) as [Hin Hout]. split.
        -- intro Hi. apply in_app_or in Hi. destruct Hi as [Hi|[Hi|[]]].
           ++ apply Hin. exact Hi.
           ++ contradiction.
        -- intro Hn. apply Hout. intro Hi. apply Hn.
           apply in_or_app. left. exact Hi.
Qed.

Lemma all_fulfilled_total {A : Type} (ps : list (Promise A)) :
  (forall i, (i < length ps)%nat -> exists v, nth_error ps i = Some (Fulfilled v)) ->
  exists vs, all_fulfilled ps = Some vs.
Proof.
  induction ps as [|p ps IH]; intro H.
  - exists []. reflexivity.
  - destruct (H 0%nat) as [v Hv]; [simpl; lia|].
    simpl in Hv. injection Hv as ->.
    destruct IH as [vs Hvs].
    { intros i Hi. apply (H (S i)). simpl. lia. }
    exists (v :: vs). simpl. rewrite Hvs. reflexivity.
Qed.

End AnyOrder.

(** While only load events have come, a recorder that exists has just been
    started and the first frame is requested. *)
Lemma loads_only_recording
    (host : Host) (images : list GeneratedImage) (audioBuffer : AudioBuffer)
    (events : list Event) (s : State) :
  run host images audioBuffer events = Some s ->
  (forall e, In e events -> exists i w h, e = ImgLoad i w h) ->
  forall r, recorder s = Some r -> r = Recording /\ rafPending s = true.
Proof.
  revert events s.
  apply (@run_ind host images audioBuffer (fun events s =>
    (forall e, In e events -> exists i w h, e = ImgLoad i w h) ->
    forall r, recorder s = Some r -> r = Recording /\ rafPending s = true)).
  - intros _ r. unfold assembleVideo, resume.
    destruct (context2d_available host); simpl; try discriminate.
    destruct images; simpl; try discriminate.
    destruct (captureStream_available host); simpl; try discriminate.
    destruct (recorder_mimeType_supported host); simpl; try discriminate.
    intro H. injection H as <-. auto.
  - intros events s e s' _ IH Hstep Hall r Hr.
    assert (Hall' : forall e0, In e0 events -> exists i w h, e0 = ImgLoad i w h).
    { intros e0 H0. apply Hall. apply in_or_app. left. exact H0. }
    destruct (Hall e) as (i & w & h & ->).
    { apply in_or_app. right. left. reflexivity. }
    simpl in Hstep.
    destruct (nth_error (loads s) i) as [[|el|r0]|]; try discriminate.
    destruct (nth_error images i) as [img|]; try discriminate.
    simpl in Hstep.
    destruct (executor s);
      try (injection Hstep as <-; apply (IH Hall' r Hr)).
    destruct (all_fulfilled _) as [elements|];
      [|injection Hstep as <-; apply (IH Hall' r Hr)].
    injection Hstep as <-. revert Hr. unfold resume.
    destruct (captureStream_available host); simpl;
      [|intro Hr; apply (IH Hall' r Hr)].
    destruct (recorder_mimeType_supported host); simpl;
      [|intro Hr; apply (IH Hall' r Hr)].
    intro H. injection H as <-. auto.
Qed.

(** C8.  Let the images decode successfully in any order: the load events
    come as a permutation [order] of the positions, each with the size the
    host found.  Then the run goes through and the executor holds exactly
    one decoded frame per image, in the order of the images whatever the
    order of decoding; at that point, and on a capable host, the recorder
    is started and the first frame requested.  Before the last image has
    decoded there is no recorder, no frame request and nothing drawn. *)
Theorem frame_source_keeps_order
    (host : Host) (images : list GeneratedImage) (audioBuffer : AudioBuffer)
    (size : nat -> Z * Z) (order : list nat) :
  context2d_available host = true ->
  Permutation order (seq 0 (length images)) ->
  let load := fun i : nat => ImgLoad i (fst (size i)) (snd (size i)) in
  (exists s : State,
      run host images audioBuffer (map load order) = Some s
      /\ length (imageElements s) = length images
      /\ (forall (i : nat) (img : GeneratedImage),
            nth_error images i = Some img ->
            nth_error (imageElements s) i
            = Some (mkElement (dataURL img) (fst (size i)) (snd (size i))))
      /\ (captureStream_available host = true ->
          recorder_mimeType_supported host = true ->
          recorder s = Some Recording /\ rafPending s = true))
  /\ (forall (pre rest : list nat) (i : nat),
        order = pre ++ i :: rest ->
        exists s0 : State,
          run host images audioBuffer (map load pre) = Some s0
          /\ recorder s0 = None /\ rafPending s0 = false /\ canvas s0 = []).
Proof.
  intros Hctx Hperm load.
  assert (Hnd : NoDup order).
  { apply (Permutation_NoDup (Permutation_sym Hperm)). apply seq_NoDup. }
  assert (Hin : forall i, In i order <-> (i < length images)%nat).
  { intro i. split.
    - intro H. apply (Permutation_in _ Hperm) in H. apply in_seq in H. lia.
    - intro H. apply (Permutation_in _ (Permutation_sym Hperm)).
      apply in_seq. lia. }
  split.
  - destruct (@run_loads_any_order host images audioBuffer size Hctx order Hnd)
      as (s & Hrun & Hloads).
    { intros i Hi. apply Hin. exact Hi. }
    exists s. split; [exact Hrun|].
    pose proof (@run_phase host images audioBuffer _ _ Hrun) as Hph.
    assert (Hlen : length (loads s) = length images).
    { destruct Hph as [Hph|[Hph|[Hph|Hph]]].
      - destruct Hph as (K & _). congruence.
      - apply Hph.
      - apply Hph.
      - apply Hph. }
    assert (Hful : forall i img, nth_error images i = Some img ->
              nth_error (loads s) i
              = Some (Fulfilled (mkElement (dataURL img) (fst (size i)) (snd (size i))))).
    { intros i img Himg. apply (Hloads i img Himg). apply Hin.
      apply nth_error_Some. congruence. }
    destruct (@all_fulfilled_total _ (loads s)) as [vs Hvs].
    { intros i Hi. rewrite Hlen in Hi.
      destruct (nth_error images i) as [img|] eqn:Himg;
        [|apply nth_error_None in Himg; lia].
      eexists. apply (Hful i img Himg). }
    destruct (proj2 (@decoded_frames_in_order host images audioBuffer _ _ Hctx Hrun)
                vs Hvs) as (Hel & Hlenvs & _).
    split; [congruence|]. split.
    + intros i img Himg. rewrite Hel.
      pose proof (all_fulfilled_nth _ Hvs i) as Hi.
      rewrite (Hful i img Himg) in Hi.
      destruct (nth_error vs i) as [v|]; simpl in Hi; congruence.
    + intros Hcap Hmime.
      destruct Hph as [Hph|[Hph|[Hph|Hph]]].
      * destruct Hph as (K & _). congruence.
      * destruct Hph as (_ & _ & _ & _ & _ & K & _). congruence.
      * destruct Hph as (_ & _ & _ & _ & _ & [(j & r & Hj)|[_ [K|K]]] & _);
          try congruence.
        destruct (all_fulfilled_settled _ _ Hvs Hj) as [v Hv]. discriminate.
      * destruct Hph as (_ & _ & _ & _ & [r Hr] & _).
        destruct (@loads_only_recording host images audioBuffer _ _ Hrun) with (r := r)
          as [-> Hraf]; auto.
        intros e He. apply in_map_iff in He. destruct He as (i & <- & _).
        eexists. eexists. eexists. reflexivity.
  - intros pre rest i Horder.
    assert (Hi : In i order).
    { rewrite Horder. apply in_or_app. right. left. reflexivity. }
    rewrite Horder in Hnd.
    pose proof (NoDup_remove_2 _ _ _ Hnd) as Hnotin.
    assert (Hndpre : NoDup pre).
    { apply NoDup_remove_1 in Hnd. revert Hnd. clear.
      induction pre as [|x pre IH]; simpl; intro H; [constructor|].
      inversion H; subst. constructor.
      - intro K. apply H2. apply in_or_app. left. exact K.
      - apply IH. assumption. }
    destruct (@run_loads_any_order host images audioBuffer size Hctx pre Hndpre)
      as (s0 & Hrun & Hloads).
    { intros j Hj. apply Hin. rewrite Horder. apply in_or_app. left. exact Hj. }
    exists s0. split; [exact Hrun|].
    destruct (nth_error images i) as [img|] eqn:Himg;
      [|apply nth_error_None in Himg; apply Hin in Hi; lia].
    assert (Hpend : nth_error (loads s0) i = Some Pending).
    { apply (Hloads i img Himg). intro K. apply Hnotin.
      apply in_or_app. left. exact K. }
    pose proof (@run_phase host images audioBuffer _ _ Hrun) as Hph.
    destruct Hph as [Hph|[Hph|[Hph|Hph]]].
    + destruct Hph as (K & _). congruence.
    + destruct Hph as (_ & _ & _ & _ & _ & _ & _ & _ & _ & Hr & _ & _ & Hc & Hraf).
      auto.
    + destruct Hph as (_ & _ & _ & _ & _ & _ & Hr & _ & _ & Hc & Hraf). auto.
    + destruct Hph as (_ & _ & _ & _ & _ & _ & _ & Hall & _).
      destruct (all_fulfilled_settled _ _ Hall Hpend) as [v Hv]. discriminate.
Qed.

(** Three images decoded in the order 2, 0, 1. *)
Lemma frame_source_keeps_order_witness :
  exists s : State,
    run capable_host [png; mkImage "R0lGODlh" "image/gif"; png] narration
        [ImgLoad 2 30 30; ImgLoad 0 10 10; ImgLoad 1 20 20] = Some s
    /\ length (imageElements s) = 3%nat
    /\ nth_error (imageElements s) 1
       = Some (mkElement "data:image/gif;base64,R0lGODlh" 20 20).
Proof.
  assert (P : Permutation [2; 0; 1]%nat
                (seq 0 (length [png; mkImage "R0lGODlh" "image/gif"; png]))).
  { simpl. apply perm_trans with [0; 2; 1]%nat.
    - apply perm_swap.
    - apply perm_skip. apply perm_swap. }
  destruct (proj1 (@frame_source_keeps_order capable_host
              [png; mkImage "R0lGODlh" "image/gif"; png] narration
              (fun i => (Z.of_nat (10 * (i + 1)), Z.of_nat (10 * (i + 1))))
              [2; 0; 1]%nat eq_refl P))
    as (s & Hrun & Hlen & Hnth & _).
  exists s. split; [exact Hrun|]. split; [exact Hlen|].
  apply (Hnth 1%nat (mkImage "R0lGODlh" "image/gif") eq_refl).
Defined.

(* ================================================================= *)
(** ** More on the scheduler and the animator *)








(* ================================================================= *)
(** ** The render loop from start to end *)

Section Loop.

Variable host : Host.
Variable images : list GeneratedImage.
Variable audioBuffer : AudioBuffer.

Hypothesis some_image : (1 <= length images)%nat.
Hypothesis some_audio : 0 < duration audioBuffer.

Local Abbreviation step := (step host images audioBuffer).
Local Abbreviation run_from := (run_from host images audioBuffer).
Local Abbreviation run := (run host images audioBuffer).
Local Abbreviation draw := (draw images audioBuffer).

(** A tick inside the audio, while recording: the canvas is cleared, one
    image is drawn, the next frame is requested and nothing else changes. *)
Lemma tick_renders (s : State) (now : Q) :
  phase_recording host images s ->
  0 <= (now - startTime s) / 1000 < duration audioBuffer ->
  exists image r,
    canvas (draw s now) = canvas s ++ [clear_black; DrawImage image r]
    /\ rafPending (draw s now) = true
    /\ recorder (draw s now) = recorder s
    /\ promise (draw s now) = promise s
    /\ chunks (draw s now) = chunks s
    /\ startTime (draw s now) = startTime s
    /\ phase_recording host images (draw s now).
Proof.
  intros Hph [Ht0 HtD].
  destruct Hph as (Hctx & Hcap & Hmime & Hx & [rec Hr] & Hlen & Hdec & Hall & Ha & Hst).
  destruct (@draw_before_end images audioBuffer s now HtD) as [Hscene Hdraw].
  destruct (draw_keeps images audioBuffer s now)
    as (Kp & Kx & Kl & Ki & Ka & Ks & Kc & _ & _).
  pose proof (sceneIndex_is_spec ((now - startTime s) / 1000) some_image some_audio)
    as Hspec.
  pose proof (spec_sceneIndex_range some_image some_audio Ht0) as Hrange.
  set (i := spec_sceneIndex (duration audioBuffer) (length images)
              ((now - startTime s) / 1000)) in *.
  assert (Hi : (Z.to_nat i < length (imageElements s))%nat).
  { rewrite (all_fulfilled_length _ Hall), Hlen. lia. }
  destruct (nth_error (imageElements s) (Z.to_nat i)) as [image|] eqn:Hnth;
    [|apply nth_error_None in Hnth; lia].
  assert (Hidx : index (imageElements s)
                   (sceneIndex (sceneDuration (Fin (duration audioBuffer)) (length images))
                      (length images) (Fin ((now - startTime s) / 1000)))
                 = Some image).
  { rewrite (@index_of_Z _ (imageElements s) _ i Hspec) by lia. exact Hnth. }
  destruct (Hdraw image Hidx) as [Hcanvas Hnext].
  assert (Hrec : recorder (draw s now) = recorder s).
  { unfold draw. rewrite elapsedTime_Fin. unfold audioDuration. simpl geb.
    assert (F : Qle_bool (duration audioBuffer) ((now - startTime s) / 1000) = false).
    { destruct (Qle_bool _ _) eqn:E; [|reflexivity].
      apply Qle_bool_iff in E. lra. }
    rewrite F. simpl imageElements. rewrite Hidx. reflexivity. }
  eexists. eexists. split; [exact Hcanvas|].
  split; [exact Hnext|]. split; [exact Hrec|].
  split; [exact Kp|]. split; [exact Kc|]. split; [exact Ks|].
  unfold phase_recording. rewrite Kx, Kl, Ki, Ka, Ks, Hrec.
  repeat split; eauto.
Qed.

Lemma frames_after_tick (s s' : State) (image : HTMLImageElement) (r : Rect) :
  canvas s' = canvas s ++ [clear_black; DrawImage image r] ->
  length (frames s') = S (length (frames s)).
Proof.
  intro H. unfold frames. rewrite H, filter_app, length_app. simpl. lia.
Qed.

(** Ticks inside the audio, one after the other. *)
Lemma ticks_render (nows : list Q) (s : State) :
  phase_recording host images s ->
  rafPending s = true ->
  (forall now, In now nows ->
     0 <= (now - startTime s) / 1000 < duration audioBuffer) ->
  exists s',
    run_from s (map AnimationFrame nows) = Some s'
    /\ phase_recording host images s'
    /\ rafPending s' = true
    /\ recorder s' = recorder s
    /\ promise s' = promise s
    /\ chunks s' = chunks s
    /\ startTime s' = startTime s
    /\ length (frames s') = (length (frames s) + length nows)%nat.
Proof.
  revert s. induction nows as [|now nows IH]; intros s Hph Hraf Hin.
  - exists s. split; [reflexivity|]. split; [exact Hph|].
    split; [exact Hraf|]. repeat split. simpl. lia.
  - destruct (@tick_renders s now Hph (Hin now (or_introl eq_refl)))
      as (image & r & Hc & Hraf1 & Hr1 & Hp1 & Hch1 & Hs1 & Hph1).
    destruct (IH (draw s now) Hph1 Hraf1) as (s' & Hrun & Hph' & Hraf' & Hr' & Hp' & Hch' & Hs' & Hf').
    { intros n Hn. rewrite Hs1. apply Hin. right. exact Hn. }
    exists s'. split; [simpl; rewrite Hraf; exact Hrun|].
    split; [exact Hph'|]. split; [exact Hraf'|].
    repeat split; try congruence.
    rewrite Hf', (@frames_after_tick s (draw s now) image r Hc). simpl. lia.
Qed.

End Loop.



Lemma data_accumulates
    (host : Host) (images : list GeneratedImage) (audioBuffer : AudioBuffer)
    (datas : list Blob) (s : State) (r : RecordingState) :
  recorder s = Some r ->
  exists s',
    run_from host images audioBuffer s (map DataAvailable datas) = Some s'
    /\ chunks s' = chunks s ++ datas
    /\ recorder s' = Some r
    /\ promise s' = promise s
    /\ canvas s' = canvas s
    /\ rafPending s' = rafPending s.
Proof.
  revert s. induction datas as [|d datas IH]; intros s Hr.
  - exists s. rewrite app_nil_r. repeat split; auto.
  - destruct (IH (ondataavailable s d) Hr) as (s' & Hrun & Hc & Hr' & Hp & Hcv & Hraf).
    exists s'. split; [simpl; rewrite Hr; exact Hrun|].
    simpl in Hc. rewrite <- app_assoc in Hc. simpl in Hc.
    repeat split; assumption.
Qed.

(** X4.  The whole of a successful recording.  From any state in which a frame
    is requested and the promise is pending: ticks inside the audio, then a
    tick at or after its end, then the data the recorder still delivers and
    its stop event.  The run goes through, one image was drawn per tick
    inside the audio, the last tick stopped the recorder, and the promise is
    fulfilled with the blob of all the chunks, those already held and those
    delivered after the stop request, in order. *)
Theorem recording_completes
    (host : Host) (images : list GeneratedImage) (audioBuffer : AudioBuffer)
    (events : list Event) (s : State) (nows : list Q) (last : Q)
    (datas : list Blob) :
  (1 <= length images)%nat ->
  0 < duration audioBuffer ->
  run host images audioBuffer events = Some s ->
  rafPending s = true ->
  promise s = Pending ->
  (forall now, In now nows ->
     0 <= (now - startTime s) / 1000 < duration audioBuffer) ->
  duration audioBuffer <= (last - startTime s) / 1000 ->
  exists s' : State,
    run host images audioBuffer
        (events ++ map AnimationFrame nows
           ++ AnimationFrame last :: map DataAvailable datas ++ [Stop])
    = Some s'
    /\ promise s' = Fulfilled (new_Blob (chunks s ++ datas) "video/webm")
    /\ length (frames s') = (length (frames s) + length nows)%nat
    /\ recorder s' = Some Inactive
    /\ rafPending s' = false.
Proof.
  intros HN HD Hrun Hraf Hpend Hin Hlast.
  pose proof (@raf_recording host images s
                (@run_phase host images audioBuffer _ _ Hrun) Hraf) as Hph.
  destruct (@ticks_render host images audioBuffer HN HD nows s Hph Hraf Hin)
    as (s1 & Hrun1 & Hph1 & Hraf1 & Hr1 & Hp1 & Hch1 & Hs1 & Hf1).
  destruct Hph1 as (_ & _ & _ & _ & [rec Hrec] & _).
  set (s2 := recorder_stop (set_rafPending s1 false)).
  assert (Hstep2 : step host images audioBuffer s1 (AnimationFrame last) = Some s2).
  { simpl. rewrite Hraf1. f_equal. apply draw_at_end. rewrite Hs1. exact Hlast. }
  assert (Hr2 : recorder s2 = Some Inactive).
  { unfold s2, recorder_stop. simpl. rewrite Hrec. reflexivity. }
  assert (K2 : chunks s2 = chunks s1 /\ promise s2 = promise s1
               /\ canvas s2 = canvas s1 /\ rafPending s2 = false).
  { unfold s2, recorder_stop. simpl. rewrite Hrec. simpl. auto. }
  destruct K2 as (Hch2 & Hp2 & Hcv2 & Hraf2).
  destruct (@data_accumulates host images audioBuffer datas s2 Inactive Hr2)
    as (s3 & Hrun3 & Hch3 & Hr3 & Hp3 & Hcv3 & Hraf3).
  exists (onstop s3). split.
  - unfold run. rewrite run_from_app. unfold run in Hrun. rewrite Hrun.
    rewrite run_from_app, Hrun1.
    cbn [run_from]. rewrite Hstep2.
    rewrite run_from_app, Hrun3. simpl. rewrite Hr3. reflexivity.
  - unfold onstop. simpl.
    rewrite Hp3, Hp2, Hp1, Hpend, Hch3, Hch2, Hch1. simpl.
    split; [reflexivity|]. split.
    + unfold frames in *. simpl. rewrite Hcv3, Hcv2. exact Hf1.
    + split; [reflexivity|]. rewrite Hraf3. exact Hraf2.
Qed.

Lemma recording_completes_witness :
  exists s' : State,
    run capable_host [png; png; png] narration
        ([ImgLoad 0 10 10; ImgLoad 1 20 20; ImgLoad 2 30 30]
           ++ map AnimationFrame [5040; 8500; 13999]
           ++ AnimationFrame 14016 :: map DataAvailable [chunk1; chunk2] ++ [Stop])
    = Some s'
    /\ promise s' = Fulfilled (new_Blob [chunk1; chunk2] "video/webm").
Proof.
  assert (HN : (1 <= length [png; png; png])%nat) by (simpl; lia).
  assert (HD : 0 < duration narration) by reflexivity.
  assert (R : exists s,
            run capable_host [png; png; png] narration
                [ImgLoad 0 10 10; ImgLoad 1 20 20; ImgLoad 2 30 30] = Some s
            /\ rafPending s = true /\ startTime s = 5000
            /\ promise s = Pending /\ chunks s = []).
  { eexists. repeat split; vm_compute; reflexivity. }
  destruct R as (s & R & Hraf & Hstart & Hp & Hc).
  destruct (@recording_completes capable_host [png; png; png] narration
              _ s [5040; 8500; 13999] 14016 [chunk1; chunk2] HN HD R Hraf Hp)
    as (s' & Hrun & Hful & _).
  { intros now Hin. rewrite Hstart.
    destruct Hin as [<-|[<-|[<-|[]]]]; split;
      solve [discriminate | reflexivity]. }
  { rewrite Hstart. discriminate. }
  exists s'. split; [exact Hrun|]. rewrite Hful, Hc. reflexivity.
Defined.

(* ================================================================= *)
(** ** What is drawn *)

Lemma index_In {A : Type} (arr : list A) (k : number) (x : A) :
  index arr k = Some x -> In x arr.
Proof.
  destruct k as [q| | |]; simpl; try discriminate.
  destruct (_ && _); [|discriminate].
  apply nth_error_In.
Qed.

Lemma resume_canvas (host : Host) (s : State) (elements : list HTMLImageElement) :
  canvas (resume host s elements) = canvas s.
Proof. apply (resume_keeps host). Qed.

Lemma drawn_snoc_clear (els : list HTMLImageElement) (log : list CanvasOp) :
  (forall pre image r rest,
      log = pre ++ DrawImage image r :: rest ->
      (exists pre', pre = pre' ++ [clear_black]) /\ In image els) ->
  forall pre image r rest,
    log ++ [clear_black] = pre ++ DrawImage image r :: rest ->
    (exists pre', pre = pre' ++ [clear_black]) /\ In image els.
Proof.
  intros Hlog pre image r rest H.
  destruct rest as [|x rest] using rev_ind.
  - apply app_inj_tail in H. destruct H as [_ H]. discriminate.
  - clear IHrest.
    change (pre ++ DrawImage image r :: rest ++ [x])
      with (pre ++ (DrawImage image r :: rest) ++ [x]) in H.
    rewrite app_assoc in H. apply app_inj_tail in H. destruct H as [H _].
    apply (Hlog _ _ _ _ H).
Qed.

Lemma drawn_snoc_frame (els : list HTMLImageElement) (log : list CanvasOp)
    (image0 : HTMLImageElement) (r0 : Rect) :
  (forall pre image r rest,
      log = pre ++ DrawImage image r :: rest ->
      (exists pre', pre = pre' ++ [clear_black]) /\ In image els) ->
  In image0 els ->
  forall pre image r rest,
    log ++ [clear_black; DrawImage image0 r0] = pre ++ DrawImage image r :: rest ->
    (exists pre', pre = pre' ++ [clear_black]) /\ In image els.
Proof.
  intros Hlog Hin pre image r rest H.
  change (log ++ [clear_black; DrawImage image0 r0])
    with (log ++ [clear_black] ++ [DrawImage image0 r0]) in H.
  rewrite app_assoc in H.
  destruct rest as [|x rest] using rev_ind.
  - apply app_inj_tail in H. destruct H as [H E]. injection E as <- _.
    split; [exists log; symmetry; exact H | exact Hin].
  - clear IHrest.
    change (pre ++ DrawImage image r :: rest ++ [x])
      with (pre ++ (DrawImage image r :: rest) ++ [x]) in H.
    rewrite app_assoc in H. apply app_inj_tail in H. destruct H as [H _].
    eapply drawn_snoc_clear; eassumption.
Qed.

(** What one event does to the canvas: nothing, a clearing, or a clearing
    followed by one of the decoded images. *)
Lemma step_canvas
    (host : Host) (images : list GeneratedImage) (audioBuffer : AudioBuffer)
    (s s' : State) (e : Event) :
  step host images audioBuffer s e = Some s' ->
  canvas s' = canvas s
  \/ canvas s' = canvas s ++ [clear_black]
  \/ exists image r,
       canvas s' = canvas s ++ [clear_black; DrawImage image r]
       /\ In image (imageElements s).
Proof.
  destruct e as [i w h|i|now|data| |err]; simpl; intro H.
  - destruct (nth_error (loads s) i) as [[|el|r]|]; try discriminate.
    destruct (nth_error images i) as [img|]; try discriminate.
    left. destruct (executor s); simpl in H;
      try (injection H as <-; reflexivity).
    destruct (all_fulfilled _); injection H as <-; [|reflexivity].
    rewrite resume_canvas. reflexivity.
  - destruct (nth_error (loads s) i) as [[|el|r]|]; try discriminate.
    left. destruct (executor s); simpl in H; injection H as <-; reflexivity.
  - destruct (rafPending s); try discriminate. injection H as <-.
    unfold draw, recorder_stop. destruct (geb _ _); simpl.
    + left. destruct (recorder s); reflexivity.
    + destruct (index (imageElements s) _) as [image|] eqn:E; simpl.
      * right. right. eexists. eexists. split.
        -- rewrite <- app_assoc. reflexivity.
        -- apply (index_In _ _ E).
      * right. left. reflexivity.
  - destruct (recorder s); try discriminate. injection H as <-. left. reflexivity.
  - destruct (recorder s); try discriminate. injection H as <-. left. reflexivity.
  - destruct (recorder s); try discriminate. injection H as <-. left. reflexivity.
Qed.

(** The decoded images are handed over before anything is drawn and are
    never replaced. *)
Lemma step_imageElements
    (host : Host) (images : list GeneratedImage) (audioBuffer : AudioBuffer)
    (s s' : State) (e : Event) :
  phase host images s ->
  step host images audioBuffer s e = Some s' ->
  imageElements s' = imageElements s \/ canvas s' = [].
Proof.
  intros Hph H.
  destruct (step_canvas _ _ _ _ _ H) as [K|[K|(image & r & K & _)]].
  - destruct e as [i w h|i|now|data| |err]; simpl in H.
    + destruct (nth_error (loads s) i) as [[|el|r]|] eqn:Hi; try discriminate.
      right. rewrite K.
      destruct Hph as [Hph|[Hph|[Hph|Hph]]].
      * apply Hph.
      * apply Hph.
      * apply Hph.
      * destruct Hph as (_ & _ & _ & _ & _ & _ & _ & Hall & _).
        destruct (all_fulfilled_settled _ _ Hall Hi) as [v Hv]. discriminate.
    + destruct (nth_error (loads s) i) as [[|el|r]|]; try discriminate.
      left. destruct (executor s); simpl in H; injection H as <-; reflexivity.
    + destruct (rafPending s); try discriminate. injection H as <-.
      left. apply draw_keeps.
    + destruct (recorder s); try discriminate. injection H as <-. left. reflexivity.
    + destruct (recorder s); try discriminate. injection H as <-. left. reflexivity.
    + destruct (recorder s); try discriminate. injection H as <-. left. reflexivity.
  - destruct e as [i w h|i|now|data| |err]; simpl in H.
    + destruct (nth_error (loads s) i) as [[|el|r]|] eqn:Hi; try discriminate.
      destruct (nth_error images i) as [img|]; try discriminate.
      exfalso.
      assert (Kc : canvas s' = canvas s).
      { destruct (executor s); simpl in H;
          try (injection H as <-; reflexivity).
        destruct (all_fulfilled _); injection H as <-; [|reflexivity].
        rewrite resume_canvas. reflexivity. }
      rewrite Kc in K. apply (f_equal (@length _)) in K.
      rewrite length_app in K. simpl in K. lia.
    + destruct (nth_error (loads s) i) as [[|el|r]|]; try discriminate.
      left. destruct (executor s); simpl in H; injection H as <-; reflexivity.
    + destruct (rafPending s); try discriminate. injection H as <-.
      left. apply draw_keeps.
    + destruct (recorder s); try discriminate. injection H as <-. left. reflexivity.
    + destruct (recorder s); try discriminate. injection H as <-. left. reflexivity.
    + destruct (recorder s); try discriminate. injection H as <-. left. reflexivity.
  - destruct e as [i w h|i|now|data| |err]; simpl in H.
    + destruct (nth_error (loads s) i) as [[|el|r0]|] eqn:Hi; try discriminate.
      destruct (nth_error images i) as [img|]; try discriminate.
      exfalso.
      assert (Kc : canvas s' = canvas s).
      { destruct (executor s); simpl in H;
          try (injection H as <-; reflexivity).
        destruct (all_fulfilled _); injection H as <-; [|reflexivity].
        rewrite resume_canvas. reflexivity. }
      rewrite Kc in K. apply (f_equal (@length _)) in K.
      rewrite length_app in K. simpl in K. lia.
    + destruct (nth_error (loads s) i) as [[|el|r0]|]; try discriminate.
      left. destruct (executor s); simpl in H; injection H as <-; reflexivity.
    + destruct (rafPending s); try discriminate. injection H as <-.
      left. apply draw_keeps.
    + destruct (recorder s); try discriminate. injection H as <-. left. reflexivity.
    + destruct (recorder s); try discriminate. injection H as <-. left. reflexivity.
    + destruct (recorder s); try discriminate. injection H as <-. left. reflexivity.
Qed.

(** X5.  In every state of every run, an image on the canvas was drawn right
    after the canvas had been cleared to black, and it is one of the decoded
    input images: a frame never shows the remains of the frame before, and
    never anything but a scene image. *)
Theorem every_frame_cleared_first
    (host : Host) (images : list GeneratedImage) (audioBuffer : AudioBuffer)
    (events : list Event) (s : State)
    (pre rest : list CanvasOp) (image : HTMLImageElement) (r : Rect) :
  run host images audioBuffer events = Some s ->
  canvas s = pre ++ DrawImage image r :: rest ->
  (exists pre', pre = pre' ++ [clear_black])
  /\ In image (imageElements s).
Proof.
  intros Hrun. revert pre rest image r. revert events s Hrun.
  apply (@run_ind host images audioBuffer (fun _ s =>
    forall pre rest image r,
      canvas s = pre ++ DrawImage image r :: rest ->
      (exists pre', pre = pre' ++ [clear_black])
      /\ In image (imageElements s))).
  - intros pre rest image r H. exfalso.
    assert (E : canvas (assembleVideo host images) = []).
    { unfold assembleVideo.
      destruct (context2d_available host); simpl; [|reflexivity].
      destruct images; [|reflexivity]. rewrite resume_canvas. reflexivity. }
    rewrite E in H. destruct pre; discriminate.
  - intros events s e s' Hrun IH Hstep pre rest image r H.
    pose proof (@run_phase host images audioBuffer _ _ Hrun) as Hph.
    destruct (@step_imageElements host images audioBuffer s s' e Hph Hstep)
      as [Kel|Kempty].
    + assert (IH' : forall pre0 image0 r0 rest0,
                 canvas s = pre0 ++ DrawImage image0 r0 :: rest0 ->
                 (exists pre', pre0 = pre' ++ [clear_black])
                 /\ In image0 (imageElements s')).
      { intros pre0 image0 r0 rest0 H0. rewrite Kel. apply (IH _ _ _ _ H0). }
      destruct (@step_canvas host images audioBuffer s s' e Hstep)
        as [K|[K|(image0 & r0 & K & Kin)]]; rewrite K in H.
      * apply (IH' _ _ _ _ H).
      * eapply drawn_snoc_clear; eassumption.
      * rewrite <- Kel in Kin.
        eapply drawn_snoc_frame; eassumption.
    + rewrite Kempty in H. destruct pre; discriminate.
Qed.

Lemma every_frame_cleared_first_witness :
  exists s pre,
    run capable_host [png] narration
        [ImgLoad 0 1024 768; AnimationFrame 5040; AnimationFrame 5080] = Some s
    /\ length (canvas s) = 4%nat
    /\ pre ++ [clear_black] = firstn 3 (canvas s).
Proof.
  assert (R : exists s image r,
            run capable_host [png] narration
                [ImgLoad 0 1024 768; AnimationFrame 5040; AnimationFrame 5080]
            = Some s
            /\ length (canvas s) = 4%nat
            /\ canvas s = firstn 3 (canvas s) ++ DrawImage image r :: []).
  { eexists. eexists. eexists.
    split; [vm_compute; reflexivity|]. split; vm_compute; reflexivity. }
  destruct R as (s & image & r & R & Hlen & Hc).
  destruct (proj1 (@every_frame_cleared_first capable_host [png] narration
                     _ s _ _ image r R Hc)) as [pre Hpre].
  exists s, pre. split; [exact R|]. split; [exact Hlen|].
  symmetry. exact Hpre.
Defined.

(* ================================================================= *)
(** ** Usage limits and credits *)

Lemma Auth_get_set (u : Auth.Usage) (t t' : Auth.UsageType) (v : Z) :
  Auth.get (Auth.set u t v) t'
  = if (Auth.uses t' [Auth.Use t] =? 1)%Z then v else Auth.get u t'.
Proof. destruct t, t'; reflexivity. Qed.

Lemma Auth_uses_cons (t : Auth.UsageType) (a : Auth.Action) (l : list Auth.Action) :
  Auth.uses t (a :: l) = (Auth.uses t [a] + Auth.uses t l)%Z.
Proof.
  destruct a as [t0| | | |]; simpl; try reflexivity.
  destruct t, t0; simpl; lia.
Qed.

Lemma Auth_uses_one (t t0 : Auth.UsageType) :
  Auth.uses t [Auth.Use t0] = 0%Z \/ Auth.uses t [Auth.Use t0] = 1%Z.
Proof. destruct t, t0; simpl; auto. Qed.

(** A visitor who is not logged in, whose counters are what is stored. *)
Lemma Auth_visits (l : list Auth.Action) (s : Auth.State) :
  forallb Auth.is_visit l = true ->
  Auth.isAuthenticated s = false ->
  (Auth.localStorage s = Some (Auth.usage s)
   \/ (Auth.localStorage s = None /\ Auth.usage s = Auth.no_usage)) ->
  Auth.isAuthenticated (Auth.acts s l) = false
  /\ (Auth.localStorage (Auth.acts s l) = Some (Auth.usage (Auth.acts s l))
      \/ (Auth.localStorage (Auth.acts s l) = None
          /\ Auth.usage (Auth.acts s l) = Auth.no_usage))
  /\ forall t, Auth.get (Auth.usage (Auth.acts s l)) t
               = (Auth.get (Auth.usage s) t + Auth.uses t l)%Z.
Proof.
  revert s. induction l as [|a l IH]; intros s Hv Hauth Hst.
  - simpl. repeat split; auto. intro t. lia.
  - simpl in Hv. apply andb_prop in Hv. destruct Hv as [Ha Hv].
    assert (K : Auth.isAuthenticated (Auth.act s a) = false
                /\ (Auth.localStorage (Auth.act s a) = Some (Auth.usage (Auth.act s a))
                    \/ (Auth.localStorage (Auth.act s a) = None
                        /\ Auth.usage (Auth.act s a) = Auth.no_usage))
                /\ forall t, Auth.get (Auth.usage (Auth.act s a)) t
                             = (Auth.get (Auth.usage s) t + Auth.uses t [a])%Z).
    { destruct a as [t0| | | |]; try discriminate; cbn [Auth.act].
      - unfold Auth.incrementUsage. rewrite Hauth.
        cbn [Auth.isAuthenticated Auth.localStorage Auth.usage].
        split; [first [exact Hauth | reflexivity]|]. split; [left; reflexivity|].
        intro t. rewrite Auth_get_set.
        destruct (Auth_uses_one t t0) as [E|E]; rewrite E; simpl; [lia|].
        destruct t, t0; simpl in E; try discriminate; reflexivity.
      - unfold Auth.reload, Auth.mount, Auth.initial.
        cbn [Auth.isAuthenticated Auth.localStorage Auth.usage].
        destruct Hst as [Hst|[Hst Hu]]; rewrite Hst;
          cbn [Auth.isAuthenticated Auth.localStorage Auth.usage Auth.uses].
        + split; [reflexivity|]. split; [left; reflexivity|]. intro t. lia.
        + split; [reflexivity|]. split; [right; auto|].
          intro t. rewrite Hu. lia.
      - unfold Auth.showLoginModal. rewrite Hauth.
        cbn [Auth.isAuthenticated Auth.localStorage Auth.usage Auth.uses].
        split; [first [exact Hauth | reflexivity]|]. split; [exact Hst|]. intro t. lia. }
    destruct K as (Ka & Ks & Ku).
    destruct (IH (Auth.act s a) Hv Ka Ks) as (Ia & Is & Iu).
    change (Auth.acts s (a :: l)) with (Auth.acts (Auth.act s a) l).
    split; [exact Ia|]. split; [exact Is|].
    intro t. rewrite Iu, Ku, (Auth_uses_cons t a l). lia.
Qed.

(** X6.  The free quota of a visitor who never logs in.  From a first visit
    with nothing stored, after any sequence of uses, page reloads and login
    prompts, a feature is still allowed exactly when it was used fewer times
    than its free limit (5 images, 2 videos, 3 audios, 1 faceless video), and
    the header shows the limit minus the uses, or 0: reloading the page does
    not give uses back. *)
Theorem free_quota_counts_uses (l : list Auth.Action) (type : Auth.UsageType) :
  forallb Auth.is_visit l = true ->
  let s := Auth.acts (Auth.mount (Auth.initial None)) l in
  Auth.checkLimit s type
  = (Auth.uses type l <? Auth.get Auth.FREE_LIMITS type)%Z
  /\ Auth.free_left s type
     = Z.max 0 (Auth.get Auth.FREE_LIMITS type - Auth.uses type l)
  /\ Auth.get (Auth.usage (Auth.reload s)) type = Auth.uses type l.
Proof.
  intros Hv s.
  destruct (@Auth_visits l (Auth.mount (Auth.initial None)) Hv eq_refl)
    as (Ha & Hs & Hu).
  { right. split; reflexivity. }
  fold s in Ha, Hs, Hu.
  assert (E : Auth.get (Auth.usage s) type = Auth.uses type l).
  { rewrite Hu. destruct type; simpl; lia. }
  split; [unfold Auth.checkLimit; rewrite Ha, E; reflexivity|].
  split; [unfold Auth.free_left; rewrite E; reflexivity|].
  rewrite <- E. unfold Auth.reload, Auth.mount, Auth.initial. simpl.
  destruct Hs as [Hs|[Hs Hz]]; rewrite Hs; simpl; [reflexivity|].
  rewrite Hz. reflexivity.
Qed.

(** Two videos, a reload, and the third video is refused. *)
Lemma free_quota_counts_uses_witness :
  Auth.checkLimit
    (Auth.acts (Auth.mount (Auth.initial None))
               [Auth.Use Auth.Video; Auth.Reload; Auth.Use Auth.Video; Auth.Reload])
    Auth.Video
  = false.
Proof.
  rewrite (proj1 (@free_quota_counts_uses
                    [Auth.Use Auth.Video; Auth.Reload; Auth.Use Auth.Video; Auth.Reload]
                    Auth.Video eq_refl)).
  reflexivity.
Defined.

(** X7.  Credits.  Whatever a visitor does, the credits stay between 0 and
    100.  For a logged-in user a use that the check allows costs exactly 10
    credits for a faceless video and 1 for anything else; a use that the
    check would refuse sets the credits to 0.  Either way the free counters
    and the stored usage are not touched. *)
Theorem credits_are_charged (l : list Auth.Action) (storage : option Auth.Usage)
    (type : Auth.UsageType) :
  let s := Auth.acts (Auth.mount (Auth.initial storage)) l in
  let s' := Auth.incrementUsage true type s in
  (0 <= Auth.credits s <= 100)%Z
  /\ (Auth.isAuthenticated s = true ->
      (Auth.checkLimit s type = true ->
       Auth.credits s' = (Auth.credits s - Auth.cost type)%Z
       /\ (0 <= Auth.credits s')%Z)
      /\ (Auth.checkLimit s type = false -> Auth.credits s' = 0%Z)
      /\ Auth.usage s' = Auth.usage s
      /\ Auth.localStorage s' = Auth.localStorage s).
Proof.
  intros s s'.
  assert (Hc : (0 <= Auth.credits s <= 100)%Z).
  { subst s.
    assert (G : forall l s0, (0 <= Auth.credits s0 <= 100)%Z ->
                  (0 <= Auth.credits (Auth.acts s0 l) <= 100)%Z).
    { clear. induction l as [|a l IH]; intros s0 H; [exact H|].
      simpl. apply IH.
      destruct a as [t| | | |]; simpl.
      - unfold Auth.incrementUsage.
        destruct (Auth.isAuthenticated s0); simpl; [|exact H].
        destruct (Auth.cost t <=? Auth.credits s0)%Z eqn:E; [|lia].
        apply Z.leb_le in E. destruct t; simpl in *; lia.
      - unfold Auth.reload, Auth.mount, Auth.initial. simpl.
        destruct (Auth.localStorage s0); simpl; lia.
      - exact H.
      - exact H.
      - unfold Auth.showLoginModal. destruct (Auth.isAuthenticated s0); exact H. }
    apply G. unfold Auth.mount, Auth.initial. simpl.
    destruct storage; simpl; lia. }
  split; [exact Hc|].
  intro Ha. unfold s', Auth.incrementUsage, Auth.checkLimit. rewrite Ha. simpl.
  split; [|split; [|split; reflexivity]].
  - intro E. rewrite E. apply Z.leb_le in E. split; [reflexivity | lia].
  - intro E. rewrite E. reflexivity.
Qed.

Lemma credits_are_charged_witness :
  Auth.credits
    (Auth.incrementUsage true Auth.FacelessVideo
       (Auth.acts (Auth.mount (Auth.initial None)) [Auth.Login]))
  = 90%Z.
Proof.
  destruct (proj2 (@credits_are_charged [Auth.Login] None Auth.FacelessVideo) eq_refl)
    as ((Hcost & _) & _).
  { reflexivity. }
  rewrite Hcost. reflexivity.
Defined.

(** X8.  Logging out gives the free quota back.  Whatever the state before,
    [logout] empties the stored usage and leaves the credits as they were;
    from then on, through any uses, reloads and login prompts, a feature is
    allowed exactly when it was used fewer times than its free limit since
    the logout.  What was used before the logout no longer counts. *)
Theorem logout_restores_free_quota
    (s : Auth.State) (l : list Auth.Action) (type : Auth.UsageType) :
  forallb Auth.is_visit l = true ->
  Auth.checkLimit (Auth.acts (Auth.logout s) l) type
  = (Auth.uses type l <? Auth.get Auth.FREE_LIMITS type)%Z
  /\ Auth.localStorage (Auth.logout s) = None
  /\ Auth.credits (Auth.logout s) = Auth.credits s.
Proof.
  intro Hv.
  destruct (@Auth_visits l (Auth.logout s) Hv eq_refl) as (Ha & _ & Hu).
  { right. split; reflexivity. }
  split; [|split; reflexivity].
  unfold Auth.checkLimit. rewrite Ha, Hu.
  destruct type; reflexivity.
Qed.

(** A visitor who has used up the free faceless video logs in and out and
    may generate again. *)
Lemma logout_restores_free_quota_witness :
  Auth.checkLimit
    (Auth.acts
       (Auth.logout
          (Auth.acts (Auth.initial None) [Auth.Use Auth.FacelessVideo; Auth.Login]))
       [Auth.Reload])
    Auth.FacelessVideo
  = true.
Proof.
  rewrite (proj1 (@logout_restores_free_quota
                    (Auth.acts (Auth.initial None)
                               [Auth.Use Auth.FacelessVideo; Auth.Login])
                    [Auth.Reload] Auth.FacelessVideo eq_refl)).
  reflexivity.
Defined.

(** X9.  The count in the header and the check agree for a visitor who is not
    logged in: the header shows 0 exactly when the feature is refused, and is
    never negative; while the feature is allowed it shows the limit minus
    the counter. *)
Theorem header_agrees_with_check (s : Auth.State) (type : Auth.UsageType) :
  Auth.isAuthenticated s = false ->
  (Auth.free_left s type = 0%Z <-> Auth.checkLimit s type = false)
  /\ (0 <= Auth.free_left s type)%Z
  /\ (Auth.checkLimit s type = true ->
      Auth.free_left s type
      = (Auth.get Auth.FREE_LIMITS type - Auth.get (Auth.usage s) type)%Z).
Proof.
  intro Ha. unfold Auth.free_left, Auth.checkLimit. rewrite Ha.
  split; [|split].
  - rewrite Z.ltb_ge. lia.
  - lia.
  - intro E. apply Z.ltb_lt in E. lia.
Qed.

Lemma header_agrees_with_check_witness :
  Auth.free_left (Auth.incrementUsage false Auth.FacelessVideo (Auth.initial None))
                 Auth.FacelessVideo = 0%Z
  <-> Auth.checkLimit
        (Auth.incrementUsage false Auth.FacelessVideo (Auth.initial None))
        Auth.FacelessVideo = false.
Proof.
  exact (proj1 (@header_agrees_with_check
                  (Auth.incrementUsage false Auth.FacelessVideo (Auth.initial None))
                  Auth.FacelessVideo eq_refl)).
Defined.

(* ================================================================= *)
(** ** The edit history of the photo editor *)

Section EditHistory.

Variable Edit : Type.

Local Abbreviation EState := (Editor.State Edit).

(** Either there is no edit and the index is -1, or the index points at an
    edit. *)
Lemma Editor_step (s : EState) (a : Editor.Action Edit) :
  (Editor.editHistory s = [] /\ Editor.currentHistoryIndex s = (-1)%Z)
  \/ (0 <= Editor.currentHistoryIndex s
         < Z.of_nat (length (Editor.editHistory s)))%Z ->
  (Editor.editHistory (Editor.act s a) = []
   /\ Editor.currentHistoryIndex (Editor.act s a) = (-1)%Z)
  \/ (0 <= Editor.currentHistoryIndex (Editor.act s a)
         < Z.of_nat (length (Editor.editHistory (Editor.act s a))))%Z.
Proof.
  intro H. destruct a as [e| | |]; simpl; [| | |left; split; reflexivity].
  - right. unfold Editor.addEdit. simpl. rewrite length_app. simpl. lia.
  - unfold Editor.handleUndo.
    destruct (0 <? Editor.currentHistoryIndex s)%Z eqn:E; [|exact H].
    apply Z.ltb_lt in E. right. simpl. lia.
  - unfold Editor.handleRedo.
    destruct (Editor.currentHistoryIndex s
              <? Z.of_nat (length (Editor.editHistory s)) - 1)%Z eqn:E; [|exact H].
    apply Z.ltb_lt in E. right. simpl.
    destruct H as [[H1 H2]|H]; [rewrite H1, H2 in E; simpl in E; lia | lia].
Qed.

Lemma Editor_reachable (l : list (Editor.Action Edit)) (s : EState) :
  (Editor.editHistory s = [] /\ Editor.currentHistoryIndex s = (-1)%Z)
  \/ (0 <= Editor.currentHistoryIndex s
         < Z.of_nat (length (Editor.editHistory s)))%Z ->
  (Editor.editHistory (Editor.acts s l) = []
   /\ Editor.currentHistoryIndex (Editor.acts s l) = (-1)%Z)
  \/ (0 <= Editor.currentHistoryIndex (Editor.acts s l)
         < Z.of_nat (length (Editor.editHistory (Editor.acts s l))))%Z.
Proof.
  revert s. induction l as [|a l IH]; intros s H; [exact H|].
  apply (IH (Editor.act s a)). apply Editor_step. exact H.
Qed.

Lemma Editor_current (s : EState) :
  (0 <= Editor.currentHistoryIndex s)%Z ->
  Editor.currentEditedImage s
  = nth_error (Editor.editHistory s) (Z.to_nat (Editor.currentHistoryIndex s)).
Proof.
  intro H. unfold Editor.currentEditedImage.
  apply index_of_Z; [apply eqv_refl | exact H].
Qed.

End EditHistory.

(** X17.  The index of the edit history never leaves the history.  After any
    sequence of edits, undos, redos and new source images, either the
    history is empty, the index is -1 and no edited image is shown, or the
    index points at an edit of the history and that edit is shown.  So undo
    never leads from an edited image back to none. *)
Theorem history_index_in_range (Edit : Type) (l : list (Editor.Action Edit)) :
  let s := Editor.acts Editor.initial l in
  (Editor.editHistory s = []
   /\ Editor.currentHistoryIndex s = (-1)%Z
   /\ Editor.currentEditedImage s = None)
  \/ ((0 <= Editor.currentHistoryIndex s
          < Z.of_nat (length (Editor.editHistory s)))%Z
      /\ exists e : Edit,
           Editor.currentEditedImage s = Some e
           /\ nth_error (Editor.editHistory s)
                        (Z.to_nat (Editor.currentHistoryIndex s)) = Some e).
Proof.
  intro s.
  destruct (@Editor_reachable Edit l Editor.initial) as [[H1 H2]|H].
  { left. split; reflexivity. }
  - left. fold s in H1, H2. split; [exact H1|]. split; [exact H2|].
    unfold Editor.currentEditedImage. rewrite H2. apply index_negative.
    reflexivity.
  - right. fold s in H. split; [exact H|].
    destruct (nth_error (Editor.editHistory s)
                (Z.to_nat (Editor.currentHistoryIndex s))) as [e|] eqn:E.
    + exists e. split; [|reflexivity].
      rewrite Editor_current by lia. exact E.
    + apply nth_error_None in E. lia.
Qed.

(** X18.  Undo and redo move the index only and undo each other.  After any
    sequence of actions: redo after an undo that moved, and undo after a redo
    that moved, give the state back; neither changes the history; undo at
    the first edit and redo at the last edit do nothing. *)
Theorem undo_redo_inverse (Edit : Type) (l : list (Editor.Action Edit)) :
  let s := Editor.acts Editor.initial l in
  ((0 < Editor.currentHistoryIndex s)%Z ->
   Editor.handleRedo (Editor.handleUndo s) = s)
  /\ ((Editor.currentHistoryIndex s
         < Z.of_nat (length (Editor.editHistory s)) - 1)%Z ->
      Editor.handleUndo (Editor.handleRedo s) = s)
  /\ Editor.editHistory (Editor.handleUndo s) = Editor.editHistory s
  /\ Editor.editHistory (Editor.handleRedo s) = Editor.editHistory s
  /\ ((Editor.currentHistoryIndex s <= 0)%Z -> Editor.handleUndo s = s)
  /\ ((Editor.currentHistoryIndex s
         = Z.of_nat (length (Editor.editHistory s)) - 1)%Z ->
      Editor.handleRedo s = s).
Proof.
  intro s.
  pose proof (@Editor_reachable Edit l Editor.initial
                (or_introl (conj eq_refl eq_refl))) as Hinv.
  fold s in Hinv. clearbody s. destruct s as [hist idx]. simpl in *.
  unfold Editor.handleRedo, Editor.handleUndo. simpl.
  split; [|split; [|split; [|split; [|split]]]].
  - intro H. apply Z.ltb_lt in H. rewrite H. simpl.
    assert (E : (idx - 1 <? Z.of_nat (length hist) - 1)%Z = true).
    { apply Z.ltb_lt. destruct Hinv as [[_ K]|K]; lia. }
    rewrite E. f_equal. lia.
  - intro H. apply Z.ltb_lt in H. rewrite H. simpl.
    assert (E : (0 <? idx + 1)%Z = true).
    { apply Z.ltb_lt. destruct Hinv as [[K1 K2]|K]; [|lia].
      rewrite K1, K2 in H. simpl in H. discriminate. }
    rewrite E. f_equal. lia.
  - destruct (0 <? idx)%Z; reflexivity.
  - destruct (idx <? Z.of_nat (length hist) - 1)%Z; reflexivity.
  - intro H. assert (E : (0 <? idx)%Z = false) by (apply Z.ltb_ge; lia).
    rewrite E. reflexivity.
  - intro H.
    assert (E : (idx <? Z.of_nat (length hist) - 1)%Z = false)
      by (apply Z.ltb_ge; lia).
    rewrite E. reflexivity.
Qed.


(* ================================================================= *)
(** ** The generator component *)

Lemma imagesOf_settled (responses : list Generator.Response) :
  Forall (fun res => Generator.imageOf res <> None) responses ->
  exists imgs,
    Generator.imagesOf responses = Generator.Settled imgs
    /\ map Some imgs = map Generator.imageOf responses.
Proof.
  induction 1 as [|res rest Hres _ IH]; simpl.
  - exists []. split; reflexivity.
  - destruct (Generator.imageOf res) as [img|]; [|congruence].
    destruct IH as (imgs & -> & Hmap).
    exists (img :: imgs). split; [reflexivity|]. simpl. rewrite Hmap. reflexivity.
Qed.

Lemma imagesOf_failed (responses : list Generator.Response) :
  Exists (fun res => Generator.imageOf res = None) responses ->
  Generator.imagesOf responses = Generator.Failed Generator.image_failed.
Proof.
  induction responses as [|res rest IH]; intro H; [inversion H|].
  simpl. destruct (Generator.imageOf res) as [img|] eqn:E; [|reflexivity].
  inversion H as [? ? K|? ? K]; subst; [congruence|].
  rewrite (IH K). reflexivity.
Qed.

Lemma imagesOf_not_waiting (responses : list Generator.Response) :
  Generator.imagesOf responses <> Generator.Waiting.
Proof.
  induction responses as [|res rest IH]; simpl; [discriminate|].
  destruct (Generator.imageOf res); [|discriminate].
  destruct (Generator.imagesOf rest); [discriminate|discriminate|congruence].
Qed.

Lemma imageOf_none (res : Generator.Response) :
  (forall part, Generator.firstPart res = Some part ->
                Generator.inlineData part = None) ->
  Generator.imageOf res = None.
Proof.
  intro H. unfold Generator.imageOf.
  destruct (Generator.firstPart res) as [part|]; [|reflexivity].
  rewrite (H part eq_refl). reflexivity.
Qed.

(** X10.  The images of a video are all there or the step fails.  When the
    service has answered every prompt: if the first part of the first
    candidate of every response carries inline data, [generateImages]
    returns these data, one image per scene and in the order of the scenes;
    if one response has no inline data in that place, wherever else it may
    carry an image, the step fails with the message of the component.  It
    never stays waiting on its own. *)
Theorem images_all_or_nothing
    (svc : Generator.Services) (scenes : list Generator.Scene)
    (responses : list Generator.Response) :
  Generator.imageResponses svc (map Generator.imagePrompt scenes)
  = Generator.Settled responses ->
  length responses = length scenes ->
  (Forall (fun res => Generator.imageOf res <> None) responses ->
   exists imgs,
     Generator.generateImages svc scenes = Generator.Settled imgs
     /\ map Some imgs = map Generator.imageOf responses
     /\ length imgs = length scenes)
  /\ (forall res, In res responses ->
        (forall part, Generator.firstPart res = Some part ->
                      Generator.inlineData part = None) ->
        Generator.generateImages svc scenes
        = Generator.Failed Generator.image_failed)
  /\ Generator.generateImages svc scenes <> Generator.Waiting.
Proof.
  intros Hres Hlen. unfold Generator.generateImages. rewrite Hres.
  split; [|split].
  - intro Hall. destruct (imagesOf_settled Hall) as (imgs & Himgs & Hmap).
    exists imgs. split; [exact Himgs|]. split; [exact Hmap|].
    rewrite <- Hlen, <- (length_map Some imgs), Hmap. apply length_map.
  - intros res Hin Hnone. apply imagesOf_failed. apply Exists_exists.
    exists res. split; [exact Hin|]. apply imageOf_none. exact Hnone.
  - apply imagesOf_not_waiting.
Qed.

Lemma images_all_or_nothing_witness :
  Generator.generateImages
    (sample_service (text_then_image_response "iVBORw0KGgo=") Generator.Waiting)
    (Generator.script sample_script)
  = Generator.Failed Generator.image_failed.
Proof.
  refine (proj1 (proj2 (@images_all_or_nothing
            (sample_service (text_then_image_response "iVBORw0KGgo=") Generator.Waiting)
            (Generator.script sample_script)
            [text_then_image_response "iVBORw0KGgo=";
             text_then_image_response "iVBORw0KGgo="]
            _ _))
          (text_then_image_response "iVBORw0KGgo=")
          _ _).
  - reflexivity.
  - reflexivity.
  - simpl. left. reflexivity.
  - intros part H. vm_compute in H. injection H as <-. reflexivity.
Defined.

(** *** Outcomes of [handleGenerate] *)

Lemma handleGenerate_started
    (svc : Generator.Services) (topic : string) (auth : Auth.State)
    (ui : Generator.UI) :
  Auth.checkLimit auth Auth.FacelessVideo = true ->
  topic <> ""%string ->
  Generator.handleGenerate svc true topic auth ui
  = let ui1 := Generator.mkUI true None (1%nat, "Writing script..."%string)
                              None None true in
    match Generator.scriptFor svc topic with
    | Generator.Waiting => (ui1, auth)
    | Generator.Failed err => (Generator.finally (Generator.catch ui1 err), auth)
    | Generator.Settled sd =>
        let ui2 := Generator.mkUI true None (2%nat, "Generating visuals..."%string)
                                  (Some sd) None true in
        match Generator.generateImages svc (Generator.script sd) with
        | Generator.Waiting => (ui2, auth)
        | Generator.Failed err => (Generator.finally (Generator.catch ui2 err), auth)
        | Generator.Settled images =>
            let ui3 := Generator.mkUI true None (3%nat, "Creating voiceover..."%string)
                                      (Some sd) None true in
            match Generator.generateAudio svc (Generator.fullNarration sd) with
            | Generator.Waiting => (ui3, auth)
            | Generator.Failed err => (Generator.finally (Generator.catch ui3 err), auth)
            | Generator.Settled audioBuffer =>
                let ui4 := Generator.mkUI true None (4%nat, "Assembling video..."%string)
                                          (Some sd) None true in
                match Generator.assemble svc images audioBuffer with
                | Generator.Waiting => (ui4, auth)
                | Generator.Failed err =>
                    (Generator.finally (Generator.catch ui4 err), auth)
                | Generator.Settled videoBlob =>
                    (Generator.mkUI false None (0%nat, ""%string) (Some sd)
                                    (Some videoBlob) false,
                     Auth.incrementUsage (Auth.isAuthenticated auth)
                                         Auth.FacelessVideo auth)
                end
            end
        end
    end.
Proof.
  intros Hlimit Htopic. unfold Generator.handleGenerate. rewrite Hlimit.
  destruct topic as [|c rest]; [congruence|]. cbn [negb].
  reflexivity.
Qed.

(** X11.  A run of [handleGenerate] that passes the three checks ends in one of
    three ways.  While it is suspended the component is loading with the
    audio context open, and nothing is shown or charged.  When it has
    ended the loading flag and the progress are reset, the audio context is
    closed, and either an error is shown, no video, and usage and credits
    are as before, or a video is shown with its script, no error, and the
    use is counted.  A script that was written stays on display whatever
    fails after it. *)
Theorem generation_outcome
    (svc : Generator.Services) (topic : string) (auth : Auth.State)
    (ui : Generator.UI) :
  Auth.checkLimit auth Auth.FacelessVideo = true ->
  topic <> ""%string ->
  let r := Generator.handleGenerate svc true topic auth ui in
  Generator.audioContextOpen (fst r) = Generator.isLoading (fst r)
  /\ (Generator.isLoading (fst r) = true ->
      Generator.error (fst r) = None
      /\ Generator.videoUrl (fst r) = None
      /\ snd r = auth)
  /\ (Generator.isLoading (fst r) = false ->
      Generator.progress (fst r) = (0%nat, ""%string)
      /\ ((exists err,
              Generator.error (fst r) = Some (Generator.Occurred err)
              /\ Generator.videoUrl (fst r) = None
              /\ snd r = auth)
          \/ (exists sd blob,
                Generator.error (fst r) = None
                /\ Generator.scriptData (fst r) = Some sd
                /\ Generator.videoUrl (fst r) = Some blob
                /\ snd r = Auth.incrementUsage (Auth.isAuthenticated auth)
                                               Auth.FacelessVideo auth)))
  /\ (forall sd, Generator.scriptFor svc topic = Generator.Settled sd ->
                 Generator.scriptData (fst r) = Some sd).
Proof.
  intros Hlimit Htopic r. subst r.
  rewrite (@handleGenerate_started svc topic auth ui Hlimit Htopic). cbv zeta.
  repeat match goal with
         | |- context [match ?a with
                       | Generator.Settled _ => _
                       | Generator.Failed _ => _
                       | Generator.Waiting => _
                       end] => destruct a
         end;
    simpl;
    (split; [reflexivity|]);
    (split; [intro H; try discriminate H; repeat split; reflexivity|]);
    (split;
     [intro H;
      first [ discriminate H
            | split; [reflexivity|];
              first [ left; eexists; repeat split; reflexivity
                    | right; do 2 eexists; repeat split; reflexivity ] ]
     | intros sd' H';
       first [ discriminate H' | injection H' as <-; reflexivity ] ]).
Qed.

Lemma generation_outcome_witness :
  Generator.audioContextOpen
    (fst (Generator.handleGenerate
            (sample_service (image_response "iVBORw0KGgo=") (Generator.Settled chunk1))
            true "Space" (Auth.mount (Auth.initial None)) Generator.idle))
  = Generator.isLoading
      (fst (Generator.handleGenerate
              (sample_service (image_response "iVBORw0KGgo=") (Generator.Settled chunk1))
              true "Space" (Auth.mount (Auth.initial None)) Generator.idle)).
Proof.
  refine (proj1 (@generation_outcome
            (sample_service (image_response "iVBORw0KGgo=") (Generator.Settled chunk1))
            "Space" (Auth.mount (Auth.initial None)) Generator.idle _ _)).
  - reflexivity.
  - discriminate.
Defined.

(** X12.  A signed-in user without the credits for a video gets no answer to a
    click on Generate: no request is made, no error is shown, the login
    dialog stays closed, and nothing is charged. *)
Theorem click_without_credits_does_nothing
    (svc : Generator.Services) (apiKey : bool) (topic : string)
    (auth : Auth.State) (ui : Generator.UI) :
  Auth.isAuthenticated auth = true ->
  (Auth.credits auth < 10)%Z ->
  Generator.handleGenerate svc apiKey topic auth ui = (ui, auth).
Proof.
  intros Hauth Hcredits. unfold Generator.handleGenerate, Auth.checkLimit.
  rewrite Hauth. simpl.
  assert (E : (10 <=? Auth.credits auth)%Z = false) by (apply Z.leb_gt; exact Hcredits).
  rewrite E. simpl. unfold Auth.showLoginModal. rewrite Hauth. reflexivity.
Qed.

Lemma click_without_credits_does_nothing_witness :
  Generator.handleGenerate
    (sample_service (image_response "iVBORw0KGgo=") (Generator.Settled chunk1)) true "Space"
    (Auth.mkState true Auth.no_usage 5 false None) Generator.idle
  = (Generator.idle, Auth.mkState true Auth.no_usage 5 false None).
Proof.
  apply (@click_without_credits_does_nothing
           (sample_service (image_response "iVBORw0KGgo=") (Generator.Settled chunk1)) true "Space"
           (Auth.mkState true Auth.no_usage 5 false None) Generator.idle).
  - reflexivity.
  - reflexivity.
Defined.

(** X13.  The free quota is one video.  When a click of a visitor who is not
    signed in has brought a video where there was none, the use is counted
    and stored, nothing is left of the quota, and every further click, with
    whatever title, only opens the login dialog and leaves the video on
    display. *)
Theorem second_free_video_asks_for_login
    (svc : Generator.Services) (apiKey : bool) (topic : string)
    (auth auth' : Auth.State) (ui ui' : Generator.UI) (blob : Blob) :
  Auth.isAuthenticated auth = false ->
  (0 <= Auth.get (Auth.usage auth) Auth.FacelessVideo)%Z ->
  Generator.videoUrl ui = None ->
  Generator.handleGenerate svc apiKey topic auth ui = (ui', auth') ->
  Generator.videoUrl ui' = Some blob ->
  Auth.get (Auth.usage auth') Auth.FacelessVideo = 1%Z
  /\ Auth.localStorage auth' = Some (Auth.usage auth')
  /\ Auth.free_left auth' Auth.FacelessVideo = 0%Z
  /\ forall (svc2 : Generator.Services) (apiKey2 : bool) (topic2 : string),
       Generator.handleGenerate svc2 apiKey2 topic2 auth' ui'
       = (ui', Auth.showLoginModal auth')
       /\ Auth.isModalOpen (Auth.showLoginModal auth') = true
       /\ Auth.usage (Auth.showLoginModal auth') = Auth.usage auth'.
Proof.
  intros Hauth Hnonneg Hnone Hrun Hvideo.
  assert (Hcharged : Auth.checkLimit auth Auth.FacelessVideo = true
                     /\ auth' = Auth.incrementUsage false Auth.FacelessVideo auth).
  { destruct (Auth.checkLimit auth Auth.FacelessVideo) eqn:Hlimit.
    - split; [reflexivity|].
      destruct topic as [|c rest].
      { unfold Generator.handleGenerate in Hrun. rewrite Hlimit in Hrun.
        simpl in Hrun. injection Hrun as <- <-. simpl in Hvideo. congruence. }
      destruct apiKey.
      2:{ unfold Generator.handleGenerate in Hrun. rewrite Hlimit in Hrun.
          simpl in Hrun. injection Hrun as <- <-. simpl in Hvideo. congruence. }
      rewrite (@handleGenerate_started svc (String c rest) auth ui Hlimit) in Hrun by discriminate.
      cbv zeta in Hrun. rewrite Hauth in Hrun.
      repeat match type of Hrun with
             | context [match ?a with
                        | Generator.Settled _ => _
                        | Generator.Failed _ => _
                        | Generator.Waiting => _
                        end] => destruct a
             end;
        injection Hrun as <- <-; simpl in Hvideo; try discriminate Hvideo.
      reflexivity.
    - unfold Generator.handleGenerate in Hrun. rewrite Hlimit in Hrun.
      simpl in Hrun. injection Hrun as <- <-. congruence. }
  destruct Hcharged as [Hlimit ->].
  unfold Auth.checkLimit in Hlimit. rewrite Hauth in Hlimit.
  apply Z.ltb_lt in Hlimit. simpl in Hlimit, Hnonneg.
  assert (Hzero : Auth.facelessVideo (Auth.usage auth) = 0%Z) by lia.
  assert (Hone : Auth.get (Auth.usage
                   (Auth.incrementUsage false Auth.FacelessVideo auth))
                   Auth.FacelessVideo = 1%Z).
  { simpl. rewrite Hzero. reflexivity. }
  split; [exact Hone|]. split; [reflexivity|].
  split.
  { unfold Auth.free_left. rewrite Hone. reflexivity. }
  intros svc2 apiKey2 topic2.
  assert (Hno : Auth.checkLimit
                  (Auth.incrementUsage false Auth.FacelessVideo auth)
                  Auth.FacelessVideo = false).
  { unfold Auth.checkLimit.
    change (Auth.isAuthenticated
              (Auth.incrementUsage false Auth.FacelessVideo auth))
      with (Auth.isAuthenticated auth).
    rewrite Hauth. rewrite Hone. reflexivity. }
  split.
  - unfold Generator.handleGenerate. rewrite Hno. reflexivity.
  - unfold Auth.showLoginModal.
    change (Auth.isAuthenticated
              (Auth.incrementUsage false Auth.FacelessVideo auth))
      with (Auth.isAuthenticated auth).
    rewrite Hauth. split; reflexivity.
Qed.

Lemma second_free_video_asks_for_login_witness :
  exists ui' auth',
    Generator.handleGenerate
      (sample_service (image_response "iVBORw0KGgo=") (Generator.Settled chunk1)) true "Space"
      (Auth.mount (Auth.initial None)) Generator.idle = (ui', auth')
    /\ Auth.free_left auth' Auth.FacelessVideo = 0%Z.
Proof.
  eexists. eexists. split; [vm_compute; reflexivity|].
  refine (proj1 (proj2 (proj2 (@second_free_video_asks_for_login
            (sample_service (image_response "iVBORw0KGgo=") (Generator.Settled chunk1)) true "Space"
            (Auth.mount (Auth.initial None)) _ Generator.idle _ chunk1
            _ _ _ _ _)))).
  - reflexivity.
  - vm_compute. discriminate.
  - reflexivity.
  - vm_compute. reflexivity.
  - reflexivity.
Defined.

(** *** [handleGenerate] on top of [assembleVideo] *)

(** The promise of [assembleVideo] is pending for good after the error event
    of an image, and on a host with a canvas context but without the capture
    stream or the recorder's mime type. *)
Lemma failed_executor_pending
    (host : Host) (images : list GeneratedImage) (audioBuffer : AudioBuffer)
    (events : list Event) (s : State) :
  run host images audioBuffer events = Some s ->
  (exists i, In (ImgError i) events)
  \/ (context2d_available host = true
      /\ (captureStream_available host = false
          \/ recorder_mimeType_supported host = false)) ->
  promise s = Pending.
Proof.
  intros H [[i Hin]|[Hctx Hlack]].
  - destruct (in_split _ _ Hin) as (pre & post & ->).
    pose proof (@run_phase host images audioBuffer _ _ H) as Hph.
    destruct (@run_prefix host images audioBuffer _ _ _ H) as (s0 & H0 & Hrest).
    pose proof (@run_phase host images audioBuffer _ _ H0) as Hph0.
    cbn [run_from] in Hrest.
    destruct (step host images audioBuffer s0 (ImgError i)) as [s1|] eqn:E;
      [|discriminate].
    destruct (@image_error_throws host images audioBuffer _ _ _ Hph0 E) as [r Hr].
    pose proof (@run_from_threw host images audioBuffer _ _ _ _ Hr Hrest) as Hx.
    destruct (@phase_of_threw host images s r Hph Hx) as (_ & Hp & _).
    exact Hp.
  - destruct (@run_phase host images audioBuffer _ _ H) as [Hph|[Hph|[Hph|Hph]]].
    + destruct Hph as (K & _). congruence.
    + destruct Hph as (_ & Hp & _). exact Hp.
    + destruct Hph as (_ & Hp & _). exact Hp.
    + destruct Hph as (_ & Hcap & Hmime & _).
      destruct Hlack; congruence.
Qed.

(** X14.  The progress display never goes away after a failed assembly.  When the
    script, the images and the speech are there and [assembleVideo] runs on
    the browser, then after the error event of one image, or on a browser
    with a canvas but without capture stream or codec, whatever events have
    followed, the component is still loading at step 4: no error is shown,
    no video, the audio context stays open and nothing is charged. *)
Theorem failed_executor_hangs_generation
    (svc : Generator.Services) (topic : string) (auth : Auth.State)
    (ui : Generator.UI) (sd : Generator.ScriptData)
    (images : list GeneratedImage) (audioBuffer : AudioBuffer)
    (host : Host) (events : list Event) (s : State) :
  Auth.checkLimit auth Auth.FacelessVideo = true ->
  topic <> ""%string ->
  Generator.scriptFor svc topic = Generator.Settled sd ->
  Generator.generateImages svc (Generator.script sd) = Generator.Settled images ->
  Generator.generateAudio svc (Generator.fullNarration sd)
  = Generator.Settled audioBuffer ->
  run host images audioBuffer events = Some s ->
  Generator.assemble svc images audioBuffer = Generator.awaited (promise s) ->
  (exists i, In (ImgError i) events)
  \/ (context2d_available host = true
      /\ (captureStream_available host = false
          \/ recorder_mimeType_supported host = false)) ->
  Generator.handleGenerate svc true topic auth ui
  = (Generator.mkUI true None (4%nat, "Assembling video..."%string) (Some sd)
                    None true,
     auth).
Proof.
  intros Hlimit Htopic Hscript Himages Haudio Hrun Hassemble Hfail.
  rewrite (@handleGenerate_started svc topic auth ui Hlimit Htopic). cbv zeta.
  rewrite Hscript, Himages, Haudio, Hassemble.
  rewrite (@failed_executor_pending host images audioBuffer events s Hrun Hfail).
  reflexivity.
Qed.

Lemma failed_executor_hangs_generation_witness :
  Generator.isLoading
    (fst (Generator.handleGenerate
            (sample_service (image_response "iVBORw0KGgo=") Generator.Waiting) true "Space"
            (Auth.mount (Auth.initial None)) Generator.idle)) = true.
Proof.
  rewrite (@failed_executor_hangs_generation
             (sample_service (image_response "iVBORw0KGgo=") Generator.Waiting) "Space"
             (Auth.mount (Auth.initial None)) Generator.idle
             sample_script [png; png] narration capable_host
             [ImgLoad 0 1024 768; ImgError 1]
             (mkState Pending (Threw (ImageErrorEvent 1))
                [Fulfilled (mkElement (dataURL png) 1024 768);
                 Rejected (ImageErrorEvent 1)]
                [] false None [] 0 false (Fin 0) [] [])).
  - reflexivity.
  - reflexivity.
  - discriminate.
  - reflexivity.
  - reflexivity.
  - reflexivity.
  - vm_compute. reflexivity.
  - reflexivity.
  - left. exists 1%nat. simpl. right. left. reflexivity.
Defined.

(** *** The name of the download *)

Lemma replace_spaces_length (str : string) :
  String.length (Generator.replace_spaces str) = String.length str.
Proof.
  induction str as [|c rest IH]; simpl; [reflexivity | rewrite IH; reflexivity].
Qed.

Lemma replace_spaces_get (str : string) (i : nat) :
  String.get i (Generator.replace_spaces str)
  = option_map (fun c => if Ascii.eqb c (Ascii.ascii_of_nat 32)
                         then Ascii.ascii_of_nat 95 else c)
               (String.get i str).
Proof.
  revert i. induction str as [|c rest IH]; intro i; simpl; [reflexivity|].
  destruct i as [|i]; [reflexivity | apply IH].
Qed.

Lemma replace_spaces_empty (str : string) :
  Generator.replace_spaces str = ""%string -> str = ""%string.
Proof. destruct str; [reflexivity | discriminate]. Qed.

(** X16.  The name of the download.  It is a stem followed by [.mp4]; the stem is
    never empty and holds no space.  For a script with a title the stem is
    the title with every space, not only the first, turned into an
    underscore and every other character kept; without a script, or with an
    empty title, it is [video]. *)
Theorem download_name (sd : option Generator.ScriptData) :
  exists stem : string,
    Generator.downloadName sd = (stem ++ ".mp4")%string
    /\ stem <> ""%string
    /\ (forall i, String.get i stem <> Some (Ascii.ascii_of_nat 32))
    /\ (forall d, sd = Some d -> Generator.youtube_title d <> ""%string ->
          String.length stem = String.length (Generator.youtube_title d)
          /\ forall i c, String.get i (Generator.youtube_title d) = Some c ->
               String.get i stem
               = Some (if Ascii.eqb c (Ascii.ascii_of_nat 32)
                       then Ascii.ascii_of_nat 95 else c))
    /\ (sd = None \/ (exists d, sd = Some d
                                /\ Generator.youtube_title d = ""%string) ->
        stem = "video"%string).
Proof.
  assert (Hvideo : forall i, String.get i "video"%string
                             <> Some (Ascii.ascii_of_nat 32)).
  { intros [|[|[|[|[|i]]]]]; simpl; discriminate. }
  destruct sd as [d|].
  - destruct (Generator.replace_spaces (Generator.youtube_title d))
      as [|c rest] eqn:E.
    + apply replace_spaces_empty in E.
      exists "video"%string. unfold Generator.downloadName. rewrite E. simpl.
      split; [reflexivity|]. split; [discriminate|]. split; [exact Hvideo|].
      split; [|reflexivity].
      intros d' Hd Hne. injection Hd as <-. congruence.
    + exists (Generator.replace_spaces (Generator.youtube_title d)).
      unfold Generator.downloadName. rewrite E at 1.
      split; [rewrite E; reflexivity|].
      split; [rewrite E; discriminate|].
      split.
      { intro i. rewrite replace_spaces_get.
        destruct (String.get i (Generator.youtube_title d)) as [a|]; simpl;
          [|discriminate].
        destruct (Ascii.eqb a (Ascii.ascii_of_nat 32)) eqn:Ea.
        - discriminate.
        - intro K. injection K as ->. discriminate. }
      split.
      { intros d' Hd _. injection Hd as <-. split.
        - apply replace_spaces_length.
        - intros i a Ha. rewrite replace_spaces_get, Ha. reflexivity. }
      intros [K|(d' & Hd & K)]; [discriminate|].
      injection Hd as <-. rewrite K in E. discriminate.
  - exists "video"%string. split; [reflexivity|]. split; [discriminate|].
    split; [exact Hvideo|]. split; [|reflexivity].
    intros d Hd. discriminate.
Qed.

(** X15.  What the visitor gets.  When the recording behind [assembleVideo] has
    fulfilled its promise, the component shows that blob beside the script,
    with no error, and counts the use.  The blob is made of the chunks
    delivered before the first stop event and has the type video/webm; the
    name it is offered under for download ends in [.mp4]. *)
Theorem finished_recording_is_delivered
    (svc : Generator.Services) (topic : string) (auth : Auth.State)
    (ui : Generator.UI) (sd : Generator.ScriptData)
    (images : list GeneratedImage) (audioBuffer : AudioBuffer)
    (host : Host) (events : list Event) (s : State) (blob : Blob) :
  Auth.checkLimit auth Auth.FacelessVideo = true ->
  topic <> ""%string ->
  Generator.scriptFor svc topic = Generator.Settled sd ->
  Generator.generateImages svc (Generator.script sd) = Generator.Settled images ->
  Generator.generateAudio svc (Generator.fullNarration sd)
  = Generator.Settled audioBuffer ->
  run host images audioBuffer events = Some s ->
  Generator.assemble svc images audioBuffer = Generator.awaited (promise s) ->
  promise s = Fulfilled blob ->
  let r := Generator.handleGenerate svc true topic auth ui in
  fst r = Generator.mkUI false None (0%nat, ""%string) (Some sd) (Some blob) false
  /\ snd r = Auth.incrementUsage (Auth.isAuthenticated auth)
                                 Auth.FacelessVideo auth
  /\ (exists pre post,
        events = pre ++ Stop :: post /\ ~ In Stop pre
        /\ blob = new_Blob (emitted pre) "video/webm")
  /\ type blob = "video/webm"%string
  /\ exists stem,
       Generator.downloadName (Generator.scriptData (fst r))
       = (stem ++ ".mp4")%string.
Proof.
  intros Hlimit Htopic Hscript Himages Haudio Hrun Hassemble Hblob r.
  assert (Hr : r = (Generator.mkUI false None (0%nat, ""%string) (Some sd)
                                   (Some blob) false,
                    Auth.incrementUsage (Auth.isAuthenticated auth)
                                        Auth.FacelessVideo auth)).
  { subst r.
    rewrite (@handleGenerate_started svc topic auth ui Hlimit Htopic). cbv zeta.
    rewrite Hscript, Himages, Haudio, Hassemble, Hblob. reflexivity. }
  rewrite Hr. cbn [fst snd].
  destruct (proj2 (@run_fulfilled host images audioBuffer events s Hrun) blob Hblob)
    as (pre & post & Hev & Hpre & Hb).
  split; [reflexivity|]. split; [reflexivity|].
  split; [exists pre, post; auto|].
  split; [rewrite Hb; reflexivity|].
  eexists. unfold Generator.downloadName. cbn [Generator.scriptData].
  reflexivity.
Qed.

Lemma finished_recording_is_delivered_witness :
  type (new_Blob [chunk1] "video/webm") = "video/webm"%string
  /\ Generator.videoUrl
       (fst (Generator.handleGenerate
               (sample_service (image_response "iVBORw0KGgo=")
                  (Generator.Settled (new_Blob [chunk1] "video/webm")))
               true "Space" (Auth.mount (Auth.initial None)) Generator.idle))
     = Some (new_Blob [chunk1] "video/webm").
Proof.
  assert (R : exists s,
            run capable_host [png; png] narration
                [ImgLoad 0 1024 768; ImgLoad 1 1024 768; AnimationFrame 5016;
                 AnimationFrame 14016; DataAvailable chunk1; Stop] = Some s
            /\ promise s = Fulfilled (new_Blob [chunk1] "video/webm")).
  { eexists. split; vm_compute; reflexivity. }
  destruct R as (s & Hrun & Hp).
  destruct (@finished_recording_is_delivered
              (sample_service (image_response "iVBORw0KGgo=")
                 (Generator.Settled (new_Blob [chunk1] "video/webm")))
              "Space" (Auth.mount (Auth.initial None)) Generator.idle
              sample_script [png; png] narration capable_host
              [ImgLoad 0 1024 768; ImgLoad 1 1024 768; AnimationFrame 5016;
               AnimationFrame 14016; DataAvailable chunk1; Stop]
              s (new_Blob [chunk1] "video/webm"))
    as (Hui & _ & _ & Hty & _).
  - reflexivity.
  - discriminate.
  - reflexivity.
  - reflexivity.
  - reflexivity.
  - exact Hrun.
  - rewrite Hp. reflexivity.
  - exact Hp.
  - split; [exact Hty|]. rewrite Hui. reflexivity.
Defined.

(** *** Sample histories of the photo editor *)

Lemma history_index_in_range_witness :
  Editor.currentEditedImage
    (Editor.acts Editor.initial
       [Editor.AddEdit png; Editor.AddEdit png; Editor.Undo; Editor.Undo;
        Editor.Undo]) <> None.
Proof.
  destruct (@history_index_in_range GeneratedImage
              [Editor.AddEdit png; Editor.AddEdit png; Editor.Undo; Editor.Undo;
               Editor.Undo])
    as [(Hnil & _)|(_ & e & He & _)].
  - discriminate Hnil.
  - rewrite He. discriminate.
Defined.

Lemma undo_redo_inverse_witness :
  Editor.handleRedo
    (Editor.handleUndo
       (Editor.acts Editor.initial [Editor.AddEdit png; Editor.AddEdit png]))
  = Editor.acts Editor.initial [Editor.AddEdit png; Editor.AddEdit png].
Proof.
  apply (proj1 (@undo_redo_inverse GeneratedImage
                  [Editor.AddEdit png; Editor.AddEdit png])).
  reflexivity.
Defined.


(* ================================================================= *)
(** ** The loops of the promo video generator *)

Lemma nextMessageIndex_of_Z (k : Z) :
  (0 <= k < 6)%Z ->
  VideoGenerator.nextMessageIndex (of_Z k) = of_Z ((k + 1) mod 6).
Proof.
  intro H.
  assert (K : k = 0%Z \/ k = 1%Z \/ k = 2%Z \/ k = 3%Z \/ k = 4%Z \/ k = 5%Z)
    by lia.
  destruct K as [->|[->|[->|[->|[->| ->]]]]]; vm_compute; reflexivity.
Qed.

Lemma messageIndex_of_Z (ticks : nat) :
  VideoGenerator.messageIndex ticks = of_Z (Z.of_nat ticks mod 6).
Proof.
  induction ticks as [|n IH]; [reflexivity|].
  cbn [VideoGenerator.messageIndex]. rewrite IH.
  rewrite nextMessageIndex_of_Z by (apply Z.mod_pos_bound; lia).
  rewrite Nat2Z.inj_succ. unfold Z.succ.
  rewrite Zplus_mod_idemp_l. reflexivity.
Qed.

(** X20.  The loading message goes round.  When the interval has fired any number
    of times, the index is that number modulo six, the message shown is the
    entry of [LOADING_MESSAGES] at that place, never [undefined], and six
    ticks later the same message is shown again: after the last message the
    first one returns. *)
Theorem loading_message_cycles (ticks : nat) :
  VideoGenerator.messageIndex ticks = of_Z (Z.of_nat ticks mod 6)
  /\ VideoGenerator.loadingMessage ticks
     = nth_error VideoGenerator.LOADING_MESSAGES (ticks mod 6)
  /\ VideoGenerator.loadingMessage ticks <> None
  /\ VideoGenerator.loadingMessage (ticks + 6) = VideoGenerator.loadingMessage ticks.
Proof.
  assert (Hmsg : forall n,
             VideoGenerator.loadingMessage n
             = nth_error VideoGenerator.LOADING_MESSAGES (n mod 6)).
  { intro n. unfold VideoGenerator.loadingMessage.
    rewrite (@index_of_Z _ VideoGenerator.LOADING_MESSAGES
               (VideoGenerator.messageIndex n) (Z.of_nat n mod 6)).
    - f_equal. rewrite <- (Nat2Z.id (n mod 6)). f_equal.
      rewrite Nat2Z.inj_mod. reflexivity.
    - rewrite messageIndex_of_Z. apply eqv_refl.
    - apply Z.mod_pos_bound. lia. }
  split; [apply messageIndex_of_Z|].
  split; [apply Hmsg|].
  split.
  - rewrite Hmsg. intro K. apply nth_error_None in K.
    change (length VideoGenerator.LOADING_MESSAGES) with 6%nat in K.
    assert (B : (ticks mod 6 < 6)%nat) by (apply Nat.mod_upper_bound; lia).
    lia.
  - rewrite !Hmsg. f_equal.
    replace (ticks + 6)%nat with (ticks + 1 * 6)%nat by lia.
    apply Nat.Div0.mod_add.
Qed.

Lemma poll_not_done (operation : VideoGenerator.Operation)
    (pre : list VideoGenerator.Operation)
    (rest : list (Reason + VideoGenerator.Operation)) (polls : nat) :
  VideoGenerator.done operation = false ->
  Forall (fun o => VideoGenerator.done o = false) pre ->
  VideoGenerator.poll operation (map inr pre ++ rest) polls
  = match rest with
    | [] => VideoGenerator.Polling (polls + length pre)
    | inl err :: _ => VideoGenerator.Thrown err (S (polls + length pre))
    | inr next :: post =>
        VideoGenerator.poll next post (S (polls + length pre))
    end.
Proof.
  revert operation polls.
  induction pre as [|o pre IH]; intros operation polls Hop Hpre.
  - rewrite Nat.add_0_r.
    destruct rest as [|[err|next] post]; simpl; rewrite Hop; reflexivity.
  - inversion Hpre as [|? ? Ho Hrest]; subst.
    simpl. rewrite Hop. rewrite (IH o (S polls) Ho Hrest).
    replace (S polls + length pre)%nat with (polls + S (length pre))%nat by lia.
    reflexivity.
Qed.

(** X21.  The polling loop leaves with the first operation that is done.  When
    the operation at hand and the answers before one are not done and that
    one is, the loop leaves with it, after one call of [getVideosOperation]
    for each answer up to it; what the service would answer later plays no
    part. *)
Theorem polling_stops_at_first_done
    (operation next : VideoGenerator.Operation)
    (pre : list VideoGenerator.Operation)
    (post : list (Reason + VideoGenerator.Operation)) :
  VideoGenerator.done operation = false ->
  Forall (fun o => VideoGenerator.done o = false) pre ->
  VideoGenerator.done next = true ->
  VideoGenerator.poll operation (map inr pre ++ inr next :: post) 0
  = VideoGenerator.Finished next (S (length pre)).
Proof.
  intros Hop Hpre Hnext.
  rewrite (@poll_not_done operation pre (inr next :: post) 0%nat Hop Hpre).
  destruct post as [|a post]; simpl; rewrite Hnext; reflexivity.
Qed.

Lemma polling_stops_at_first_done_witness :
  VideoGenerator.poll (VideoGenerator.mkOperation false)
    (map inr [VideoGenerator.mkOperation false; VideoGenerator.mkOperation false]
       ++ inr (VideoGenerator.mkOperation true)
       :: [inl (Error "Requested entity was not found")]) 0
  = VideoGenerator.Finished (VideoGenerator.mkOperation true) 3.
Proof.
  apply (@polling_stops_at_first_done
           (VideoGenerator.mkOperation false) (VideoGenerator.mkOperation true)
           [VideoGenerator.mkOperation false; VideoGenerator.mkOperation false]
           [inl (Error "Requested entity was not found")]).
  - reflexivity.
  - repeat constructor.
  - reflexivity.
Defined.

(** X22.  The polling loop has no limit.  As long as no answer says that the
    operation is done, the loop asks again: after any number of such
    answers it is still polling, and it has made one call for each. *)
Theorem polling_has_no_limit
    (operation : VideoGenerator.Operation)
    (answers : list VideoGenerator.Operation) :
  VideoGenerator.done operation = false ->
  Forall (fun o => VideoGenerator.done o = false) answers ->
  VideoGenerator.poll operation (map inr answers) 0
  = VideoGenerator.Polling (length answers).
Proof.
  intros Hop Hans.
  rewrite <- (app_nil_r (map inr answers)).
  rewrite (@poll_not_done operation answers [] 0%nat Hop Hans). reflexivity.
Qed.

Lemma polling_has_no_limit_witness :
  VideoGenerator.poll (VideoGenerator.mkOperation false)
    (map inr (repeat (VideoGenerator.mkOperation false) 360)) 0
  = VideoGenerator.Polling 360.
Proof.
  apply (@polling_has_no_limit (VideoGenerator.mkOperation false)
           (repeat (VideoGenerator.mkOperation false) 360)).
  - reflexivity.
  - apply Forall_forall. intros o Ho. apply repeat_spec in Ho. subst o.
    reflexivity.
Defined.
